(** * AccountCache: the checkpointable account cache of the state manager

    Shallow embedding of the class [AccountCache] of the state manager:
    a key-value backend (bounded LRU or unbounded ordered map), a stack of
    diff layers holding pre-images, a checkpoint counter and statistics.
    Every method is a function from the cache object's state to a
    completion (normal return or thrown exception) and the state the object
    is left in, so that what a failing call has already mutated stays
    visible. *)

From stdpp Require Import base option list gmap strings sorting.
From Stdlib Require Import ZArith Lia.
From Stdlib.Strings Require Import Byte Ascii.

(** ** Values *)

(** A Node [Buffer]: a sequence of bytes. *)
Definition Buffer : Type := list Byte.byte.

(** [Address] of @ethereumjs/util: only its [buf] field is used here. *)
Record Address : Type := mkAddress { buf : Buffer }.

(** [type AccountCacheElement = { accountRLP: Buffer | undefined }]:
    [accountRLP = undefined] means the account is known not to exist. *)
Record AccountCacheElement : Type := mkElem { accountRLP : option Buffer }.

(** [buf.toString('hex')]: two lowercase hexadecimal digits per byte. *)
Definition hexDigit (n : N) : ascii :=
  match n with
  | 0%N => "0" | 1%N => "1" | 2%N => "2" | 3%N => "3"
  | 4%N => "4" | 5%N => "5" | 6%N => "6" | 7%N => "7"
  | 8%N => "8" | 9%N => "9" | 10%N => "a" | 11%N => "b"
  | 12%N => "c" | 13%N => "d" | 14%N => "e" | _ => "f"
  end%char.

Fixpoint toStringHex (b : Buffer) : string :=
  match b with
  | [] => EmptyString
  | x :: r =>
      let n := Byte.to_N x in
      String (hexDigit (n / 16)) (String (hexDigit (n mod 16)) (toStringHex r))
  end.

(** [address.buf.toString('hex')], the cache key of an address. *)
Definition addressHex (address : Address) : string := toStringHex (buf address).

(** ** Exceptions and completions *)

(** The only exception these methods can raise is the [TypeError] of a
    property access on [undefined]. *)
Inductive Exception : Type := TypeError.

Inductive Completion (A : Type) : Type :=
  | Normal (a : A)
  | Throw (e : Exception).
Arguments Normal {A} a.
Arguments Throw {A} e.

(** ** js-sdsl [OrderedMap]

    A map sorted by key; a [gmap] keyed by strings, iterated in ascending
    key order (the default comparator on strings). A stored value may itself
    be [undefined], which is why the diff maps have values of type
    [option AccountCacheElement]. *)
Module OrderedMap.
Section ops.
Context {V : Type}.

(** [begin() ... next()]: the entries in ascending key order. *)
Definition entries (m : gmap string V) : list (string * V) :=
  merge_sort (λ p q : string * V, String.le p.1 q.1) (map_to_list m).

(** [find(key)] compared with [end()]: [true] when the key is stored. *)
Definition found (m : gmap string V) (key : string) : bool :=
  bool_decide (is_Some (m !! key)).

Definition setElement (m : gmap string V) (key : string) (v : V) : gmap string V :=
  <[key := v]> m.

Definition eraseElementByKey (m : gmap string V) (key : string) : gmap string V :=
  delete key m.
End ops.

(** [getElementByKey(key)] on a map whose values may be [undefined]: the
    result is [undefined] both when the key is missing and when the stored
    value is [undefined]. *)
Definition getElementByKey {V : Type} (m : gmap string (option V)) (key : string) : option V :=
  match m !! key with
  | Some v => v
  | None => None
  end.
End OrderedMap.

(** ** The bounded backend *)

(** Modelled from the spec: the [lru-cache] package is not part of the
    sources; the bounded store has a fixed capacity, reading or writing a
    key makes it the most recently used one, and inserting beyond capacity
    evicts the least recently used entry. Entries are kept most recently
    used first. *)
Module LRUCache.
Section ops.
Context {V : Type}.

Record t : Type := mk { max : positive; items : list (string * V) }.

Fixpoint assoc (key : string) (l : list (string * V)) : option V :=
  match l with
  | [] => None
  | (k, v) :: r => if decide (k = key) then Some v else assoc key r
  end.

Definition without (key : string) (l : list (string * V)) : list (string * V) :=
  filter (λ p, p.1 ≠ key) l.

(** Lookup without touching recency (the view used in statements). *)
Definition peek (c : t) (key : string) : option V := assoc key (items c).

Definition get (c : t) (key : string) : option V * t :=
  match assoc key (items c) with
  | Some v => (Some v, mk (max c) ((key, v) :: without key (items c)))
  | None => (None, c)
  end.

Definition set (c : t) (key : string) (v : V) : t :=
  let l := (key, v) :: without key (items c) in
  mk (max c) (if decide (Pos.to_nat (max c) < length l) then removelast l else l).

Definition delete (c : t) (key : string) : t :=
  mk (max c) (without key (items c)).
End ops.
Arguments t : clear implicits.
End LRUCache.

(** ** The cache object *)

(** [_lruCache] / [_orderedMapCache]: exactly one of the two is defined, and
    every method tests [if (this._lruCache)] to pick it. *)
Inductive Backend : Type :=
  | LruBackend (c : LRUCache.t AccountCacheElement)
  | MapBackend (m : gmap string AccountCacheElement).

(** A diff map: key to the element before the first modification, with
    [None] ([undefined]) when the key was not in the backend. *)
Abbreviation DiffMap := (gmap string (option AccountCacheElement)).

Record Stats : Type := mkStats { reads : Z; hits : Z; writes : Z; dels : Z }.

Record Cache : Type := mkCache {
  _backend : Backend;
  _diffCache : list DiffMap;
  _checkpoints : Z;
  _stats : Stats
}.

Definition setBackend (b : Backend) (s : Cache) : Cache :=
  mkCache b (_diffCache s) (_checkpoints s) (_stats s).
Definition setDiffCache (d : list DiffMap) (s : Cache) : Cache :=
  mkCache (_backend s) d (_checkpoints s) (_stats s).
Definition setCheckpoints (n : Z) (s : Cache) : Cache :=
  mkCache (_backend s) (_diffCache s) n (_stats s).
Definition setStats (st : Stats) (s : Cache) : Cache :=
  mkCache (_backend s) (_diffCache s) (_checkpoints s) st.

(** A method: from the object's state to a completion and the new state. *)
Definition Method (A : Type) : Type := Cache → Completion A * Cache.

Definition bind {A B : Type} (m : Method A) (f : A → Method B) : Method B :=
  λ s, match m s with
       | (Normal a, s') => f a s'
       | (Throw e, s') => (Throw e, s')
       end.

(** ** Arrays *)

(** [arr[i]] for a numeric [i]: [undefined] outside [0 .. length-1]. *)
Definition arrayGet {A : Type} (l : list A) (i : Z) : option A :=
  if decide (0 ≤ i)%Z then l !! Z.to_nat i else None.

(** In-place update of [arr[i]]; only used at an index [arrayGet] found. *)
Definition arraySet {A : Type} (l : list A) (i : Z) (x : A) : list A :=
  <[Z.to_nat i := x]> l.

(** [arr.pop()]: the last element and the remaining array, [None] when the
    array is empty ([pop] then returns [undefined]). *)
Fixpoint pop {A : Type} (l : list A) : option (A * list A) :=
  match l with
  | [] => None
  | x :: r =>
      match pop r with
      | None => Some (x, [])
      | Some (y, r') => Some (y, x :: r')
      end
  end.

(** ** Backend access, as each method spells it out *)

(** [if (this._lruCache) this._lruCache.get(k) else
    this._orderedMapCache.getElementByKey(k)] *)
Definition cacheGet (b : Backend) (key : string) : option AccountCacheElement * Backend :=
  match b with
  | LruBackend c => let '(v, c') := LRUCache.get c key in (v, LruBackend c')
  | MapBackend m => (m !! key, MapBackend m)
  end.

(** [if (this._lruCache) this._lruCache.set(k, e) else
    this._orderedMapCache.setElement(k, e)] *)
Definition cacheSet (b : Backend) (key : string) (e : AccountCacheElement) : Backend :=
  match b with
  | LruBackend c => LruBackend (LRUCache.set c key e)
  | MapBackend m => MapBackend (OrderedMap.setElement m key e)
  end.

(** [if (this._lruCache) this._lruCache.delete(k) else
    this._orderedMapCache.eraseElementByKey(k)] *)
Definition cacheDelete (b : Backend) (key : string) : Backend :=
  match b with
  | LruBackend c => LruBackend (LRUCache.delete c key)
  | MapBackend m => MapBackend (OrderedMap.eraseElementByKey m key)
  end.

(** The backend's content at a key, read without side effect. *)
Definition backendLookup (b : Backend) (key : string) : option AccountCacheElement :=
  match b with
  | LruBackend c => LRUCache.peek c key
  | MapBackend m => m !! key
  end.

Definition isUnbounded (b : Backend) : bool :=
  match b with
  | LruBackend _ => false
  | MapBackend _ => true
  end.

(** ** Methods of [AccountCache] *)

Definition _saveCachePreState (cacheKeyHex : string) : Method unit :=
  λ s,
    match arrayGet (_diffCache s) (_checkpoints s) with
    | None => (Throw TypeError, s)
    | Some diffMap =>
        if OrderedMap.found diffMap cacheKeyHex then (Normal (), s)
        else
          let '(oldElem, b) := cacheGet (_backend s) cacheKeyHex in
          (Normal (),
           setDiffCache
             (arraySet (_diffCache s) (_checkpoints s)
                (OrderedMap.setElement diffMap cacheKeyHex oldElem))
             (setBackend b s))
    end.

Definition incrWrites (st : Stats) : Stats :=
  mkStats (reads st) (hits st) (writes st + 1) (dels st).
Definition incrDels (st : Stats) : Stats :=
  mkStats (reads st) (hits st) (writes st) (dels st + 1).
Definition incrReads (st : Stats) : Stats :=
  mkStats (reads st + 1) (hits st) (writes st) (dels st).
Definition incrHits (st : Stats) : Stats :=
  mkStats (reads st) (hits st + 1) (writes st) (dels st).

(** [put(address, account)]; [serialize] is [Account.serialize] of
    @ethereumjs/util, taken as a parameter. *)
Definition put {Account : Type} (serialize : Account → Buffer)
    (address : Address) (account : option Account) : Method unit :=
  let addressHex := addressHex address in
  bind (_saveCachePreState addressHex) (λ _ s,
    let elem := mkElem (match account with
                        | Some a => Some (serialize a)
                        | None => None
                        end) in
    (Normal (),
     setStats (incrWrites (_stats s))
       (setBackend (cacheSet (_backend s) addressHex elem) s))).

Definition get (address : Address) : Method (option AccountCacheElement) :=
  λ s,
    let addressHex := addressHex address in
    let '(elem, b) := cacheGet (_backend s) addressHex in
    let st := incrReads (_stats s) in
    let st := match elem with
              | Some _ => incrHits st
              | None => st
              end in
    (Normal elem, setStats st (setBackend b s)).

Definition del (address : Address) : Method unit :=
  let addressHex := addressHex address in
  bind (_saveCachePreState addressHex) (λ _ s,
    (Normal (),
     setStats (incrDels (_stats s))
       (setBackend (cacheSet (_backend s) addressHex (mkElem None)) s))).

(** The [while] loop of [flush] over the keys of the diff map. *)
Fixpoint flushLoop (keys : list string) (b : Backend)
    (items : list (string * AccountCacheElement))
    : list (string * AccountCacheElement) * Backend :=
  match keys with
  | [] => (items, b)
  | cacheKeyHex :: r =>
      let '(elem, b') := cacheGet b cacheKeyHex in
      flushLoop r b'
        (match elem with
         | Some e => items ++ [(cacheKeyHex, e)]
         | None => items
         end)
  end.

(** [flush()]; a rejected promise is a [Throw]. *)
Definition flush : Method (list (string * AccountCacheElement)) :=
  λ s,
    match arrayGet (_diffCache s) (_checkpoints s) with
    | None => (Throw TypeError, s)
    | Some diffMap =>
        let '(items, b) :=
          flushLoop (OrderedMap.entries diffMap).*1 (_backend s) [] in
        (Normal items,
         setDiffCache (arraySet (_diffCache s) (_checkpoints s) ∅)
           (setBackend b s))
    end.

(** The [while] loop of [revert] over the entries of the popped diff map. *)
Fixpoint revertLoop (es : list (string * option AccountCacheElement))
    (b : Backend) : Backend :=
  match es with
  | [] => b
  | (addressHex, elem) :: r =>
      revertLoop r
        (match elem with
         | None => cacheDelete b addressHex
         | Some e => cacheSet b addressHex e
         end)
  end.

Definition revert : Method unit :=
  λ s,
    let s := setCheckpoints (_checkpoints s - 1) s in
    match pop (_diffCache s) with
    | None => (Throw TypeError, s)
    | Some (diffMap, rest) =>
        let s := setDiffCache rest s in
        (Normal (),
         setBackend (revertLoop (OrderedMap.entries diffMap) (_backend s)) s)
    end.

(** The [while] loop of [commit] over the entries of the popped diff map. *)
Fixpoint commitLoop (es : list (string * option AccountCacheElement))
    : Method unit :=
  λ s,
    match es with
    | [] => (Normal (), s)
    | (addressHex, element) :: r =>
        match arrayGet (_diffCache s) (_checkpoints s) with
        | None => (Throw TypeError, s)
        | Some parent =>
            let oldElem := OrderedMap.getElementByKey parent addressHex in
            commitLoop r
              (match oldElem with
               | None =>
                   setDiffCache
                     (arraySet (_diffCache s) (_checkpoints s)
                        (OrderedMap.setElement parent addressHex element))
                     s
               | Some _ => s
               end)
        end
    end.

Definition commit : Method unit :=
  λ s,
    let s := setCheckpoints (_checkpoints s - 1) s in
    match pop (_diffCache s) with
    | None => (Throw TypeError, s)
    | Some (diffMap, rest) =>
        commitLoop (OrderedMap.entries diffMap) (setDiffCache rest s)
    end.

(** ** The base class [Cache] *)

Inductive CacheType : Type := LRU | ORDERED_MAP.

(** Modelled from the spec: [CacheOpts] is imported from ./types, which is
    not part of the sources. The engine is created with a fixed backend kind
    and capacity. *)
Module CacheOpts.
Record t : Type := mk { size : positive; type : CacheType }.
End CacheOpts.

(** Modelled from the spec: the constructor of the base class [Cache]
    (imported from ./cache) is not part of the sources. The engine starts at
    depth 0 with an empty backend of the chosen kind and zeroed counters.
    The spec's implicit base layer is the element [_diffCache[0]]: at depth
    0 the methods above address [this._diffCache[this._checkpoints]] with
    [_checkpoints = 0], so the array holds the base layer below the layers
    of the open checkpoints. *)
Definition newCache (opts : CacheOpts.t) : Cache :=
  mkCache
    (match CacheOpts.type opts with
     | LRU => LruBackend (LRUCache.mk (CacheOpts.size opts) [])
     | ORDERED_MAP => MapBackend ∅
     end)
    [∅] 0 (mkStats 0 0 0 0).

(** Modelled from the spec: [checkpoint()] of the base class [Cache]
    (imported from ./cache) is not part of the sources. It pushes a new
    empty diff layer and the depth grows by one; it always succeeds. *)
Definition checkpoint : Method unit :=
  λ s,
    (Normal (),
     setDiffCache (_diffCache s ++ [∅]) (setCheckpoints (_checkpoints s + 1) s)).

(** ** Sequences of calls *)

(** A mutation: [put] or [del]. *)
Inductive Mutation (Account : Type) : Type :=
  | Put (address : Address) (account : option Account)
  | Del (address : Address).
Arguments Put {Account} address account.
Arguments Del {Account} address.

Definition mutationKey {Account : Type} (m : Mutation Account) : string :=
  match m with
  | Put a _ => addressHex a
  | Del a => addressHex a
  end.

Definition mutate {Account : Type} (serialize : Account → Buffer)
    (m : Mutation Account) : Method unit :=
  match m with
  | Put a acc => put serialize a acc
  | Del a => del a
  end.

(** Any call a client can make on the cache. *)
Inductive Op (Account : Type) : Type :=
  | OpMutate (m : Mutation Account)
  | OpGet (address : Address)
  | OpCheckpoint
  | OpCommit
  | OpRevert
  | OpFlush.
Arguments OpMutate {Account} m.
Arguments OpGet {Account} address.
Arguments OpCheckpoint {Account}.
Arguments OpCommit {Account}.
Arguments OpRevert {Account}.
Arguments OpFlush {Account}.

(** The state a call leaves the object in, whether it returned or threw (the
    caller may catch the exception and go on). *)
Definition exec {Account : Type} (serialize : Account → Buffer)
    (op : Op Account) (s : Cache) : Cache :=
  match op with
  | OpMutate m => (mutate serialize m s).2
  | OpGet a => (get a s).2
  | OpCheckpoint => (checkpoint s).2
  | OpCommit => (commit s).2
  | OpRevert => (revert s).2
  | OpFlush => (flush s).2
  end.

Definition run {Account : Type} (serialize : Account → Buffer)
    (ops : list (Op Account)) (s : Cache) : Cache :=
  foldl (λ s op, exec serialize op s) s ops.

(** The diff layer the methods address: [this._diffCache[this._checkpoints]]. *)
Definition currentLayer (s : Cache) : option DiffMap :=
  arrayGet (_diffCache s) (_checkpoints s).

(** The stack holds the base layer and one layer per open checkpoint. *)
Definition wellFormed (s : Cache) : Prop :=
  Z.of_nat (length (_diffCache s)) = (_checkpoints s + 1)%Z.

(** ** Auxiliary definitions used in the statements *)

(** The layer [_saveCachePreState] leaves at the current height. *)
Definition savedLayer (d : DiffMap) (k : string) (b : Backend) : DiffMap :=
  if OrderedMap.found d k then d else <[k := backendLookup b k]> d.

(** The element a mutation writes. *)
Definition mutationElem {Account : Type} (serialize : Account → Buffer)
    (m : Mutation Account) : AccountCacheElement :=
  match m with
  | Put _ (Some a) => mkElem (Some (serialize a))
  | Put _ None => mkElem None
  | Del _ => mkElem None
  end.

Definition mutationStats {Account : Type} (m : Mutation Account) (st : Stats) : Stats :=
  match m with
  | Put _ _ => incrWrites st
  | Del _ => incrDels st
  end.

(** The pairs [flush] collects: the given keys that the backend holds, each
    with the backend's element. *)
Fixpoint presentPairs (keys : list string) (b : Backend)
    : list (string * AccountCacheElement) :=
  match keys with
  | [] => []
  | k :: r =>
      match backendLookup b k with
      | Some e => (k, e) :: presentPairs r b
      | None => presentPairs r b
      end
  end.

(** A run of mutations, each left in whatever state it ends in. *)
Definition mutateAll {Account : Type} (serialize : Account → Buffer)
    (ms : list (Mutation Account)) (s : Cache) : Cache :=
  foldl (λ s m, (mutate serialize m s).2) s ms.

(** [checkpoint()], then the mutations [ms], then [revert()]: the revert
    returns, every key touched by [ms] is back at the backend entry (or
    absence) it had before the checkpoint, and every other key's backend
    entry is unchanged. *)
Definition revertRestores {Account : Type} (serialize : Account → Buffer)
    (s : Cache) (ms : list (Mutation Account)) : Prop :=
  let r := revert (mutateAll serialize ms (checkpoint s).2) in
  r.1 = Normal () ∧
  (∀ k, k ∈ mutationKey <$> ms →
        backendLookup (_backend r.2) k = backendLookup (_backend s) k) ∧
  (∀ k, k ∉ mutationKey <$> ms →
        backendLookup (_backend r.2) k = backendLookup (_backend s) k).

(** The layer the specification of [flush] names: the one of the oldest open
    checkpoint, or the base layer when no checkpoint is open. *)
Definition oldestOpenLayer (s : Cache) : option DiffMap :=
  if decide (_checkpoints s = 0%Z) then _diffCache s !! 0 else _diffCache s !! 1.

(** Calls that neither mutate nor move the checkpoint depth. *)
Definition isRead {Account : Type} (op : Op Account) : bool :=
  match op with
  | OpGet _ | OpFlush => true
  | _ => false
  end.

Definition isMutateOrGet {Account : Type} (op : Op Account) : bool :=
  match op with
  | OpMutate _ | OpGet _ => true
  | _ => false
  end.

Definition isMutate {Account : Type} (op : Op Account) : bool :=
  match op with
  | OpMutate _ => true
  | _ => false
  end.



(** ** Sample data for the worked examples

    Accounts are stood for by their serialisation. *)
Module Sample.
Definition serialize : Buffer → Buffer := id.

Definition A : Address := mkAddress [x0a].
Definition B : Address := mkAddress [x0b].
Definition v1 : Buffer := [x01].
Definition v2 : Buffer := [x02].
Definition v3 : Buffer := [x03].

Definition unbounded : Cache := newCache (CacheOpts.mk 1 ORDERED_MAP).
Definition bounded1 : Cache := newCache (CacheOpts.mk 1 LRU).

(** [put(A, v1)] on a fresh cache of either kind. *)
Definition unboundedA : Cache :=
  run serialize [OpMutate (Put A (Some v1))] unbounded.
Definition bounded1A : Cache :=
  run serialize [OpMutate (Put A (Some v1))] bounded1.

(** The same on a bounded cache of capacity 2. *)
Definition bounded2A : Cache :=
  run serialize [OpMutate (Put A (Some v1))] (newCache (CacheOpts.mk 2 LRU)).

(** [checkpoint(); put(A, v2); checkpoint(); put(A, v3)] on a fresh
    unbounded cache: [A] is absent before the outer checkpoint. *)
Definition nested : Cache :=
  run serialize
    [OpCheckpoint; OpMutate (Put A (Some v2));
     OpCheckpoint; OpMutate (Put A (Some v3))] unbounded.

(** [checkpoint(); put(A, v1); checkpoint(); put(B, v2)]: two open
    checkpoints whose layers record different keys. *)
Definition twoScopes : Cache :=
  run serialize
    [OpCheckpoint; OpMutate (Put A (Some v1));
     OpCheckpoint; OpMutate (Put B (Some v2))] unbounded.

(** [flush(); put(A, v1); checkpoint()]: a mutation tracked in the base
    layer, then a checkpoint opened before the next flush. *)
Definition mutatedThenCheckpoint : Cache :=
  run serialize [OpFlush; OpMutate (Put A (Some v1)); OpCheckpoint] unbounded.

(** [put(A, v1); checkpoint(); put(A, v2)]: [A] has been mutated once in
    the open scope, its pre-image [v1] is recorded. *)
Definition mutatedOnce : Cache :=
  run serialize
    [OpMutate (Put A (Some v1)); OpCheckpoint; OpMutate (Put A (Some v2))]
    unbounded.


(** [put(A, v1); put(B, v2)] on a fresh bounded cache of capacity 1: the
    base layer records both keys, the backend holds [B] only. *)
Definition evicted : Cache :=
  run serialize [OpMutate (Put A (Some v1)); OpMutate (Put B (Some v2))] bounded1.

(** The base layer of [evicted]. *)
Definition evictedLayer : DiffMap :=
  <[addressHex B := None]> {[addressHex A := None]}.
End Sample.

(** The current layer records a key that the backend holds: the next
    [flush] has something to report. *)
Definition reportable (s : Cache) : Prop :=
  ∃ d k, currentLayer s = Some d ∧ is_Some (d !! k) ∧
         is_Some (backendLookup (_backend s) k).

(** A sequence of calls that never commits or reverts without an open
    checkpoint, started at the given depth. *)
Fixpoint wellBracketed {Account : Type} (ops : list (Op Account)) (depth : nat) : bool :=
  match ops with
  | [] => true
  | OpCheckpoint :: r => wellBracketed r (S depth)
  | OpCommit :: r | OpRevert :: r =>
      match depth with
      | 0 => false
      | S n => wellBracketed r n
      end
  | _ :: r => wellBracketed r depth
  end.

(** The entry [commit] leaves in the parent layer for a key, given the
    parent layer and the popped layer as they were. *)
Definition mergedEntry (parent popped : DiffMap) (k : string)
    : option (option AccountCacheElement) :=
  match popped !! k with
  | Some pre =>
      match OrderedMap.getElementByKey parent k with
      | None => Some pre
      | Some _ => parent !! k
      end
  | None => parent !! k
  end.

(** The backend can hold all the keys of [K] at once: it is unbounded, or it
    is bounded, holds every key once, holds keys of [K] only, and its
    capacity is at least the size of [K]. Writing keys of [K] then never
    evicts. *)
Definition fits (K : gset string) (b : Backend) : Prop :=
  match b with
  | MapBackend _ => True
  | LruBackend c =>
      NoDup (LRUCache.items c).*1 ∧
      (∀ k, k ∈ (LRUCache.items c).*1 → k ∈ K) ∧
      size K ≤ Pos.to_nat (LRUCache.max c)
  end.

(** The keys the backend holds together with the given ones. *)
Definition roomKeys (keys : list string) (b : Backend) : gset string :=
  match b with
  | MapBackend _ => list_to_set keys
  | LruBackend c => list_to_set ((LRUCache.items c).*1 ++ keys)
  end.

(** Nothing has to be evicted while only the given keys are written: the
    backend is unbounded, or it is bounded, holds every key once, and its
    capacity is at least the number of distinct keys among those it holds
    and the given ones. *)
Definition roomFor (keys : list string) (b : Backend) : Prop :=
  match b with
  | MapBackend _ => True
  | LruBackend c =>
      NoDup (LRUCache.items c).*1 ∧
      size (roomKeys keys b) ≤ Pos.to_nat (LRUCache.max c)
  end.

(** While a checkpoint on top of the layers [L] is open and only keys of [K]
    are written: the top layer [d] records, for each key it holds, the entry
    the backend [b0] had, and the backend still agrees with [b0] on every
    key the layer does not hold. *)
Definition scopeInv (K : gset string) (b0 : Backend) (L : list DiffMap)
    (s : Cache) : Prop :=
  ∃ d, _diffCache s = L ++ [d] ∧
       _checkpoints s = Z.of_nat (length L) ∧
       fits K (_backend s) ∧
       (∀ k, is_Some (d !! k) → k ∈ K) ∧
       ∀ k, match d !! k with
            | Some pre => pre
            | None => backendLookup (_backend s) k
            end = backendLookup b0 k.

(** ** Further definitions used in the statements about whole runs *)

(** The value of a lowercase hexadecimal digit (inverse of [hexDigit]). *)
Definition hexValue (c : ascii) : N :=
  match c with
  | "0" => 0 | "1" => 1 | "2" => 2 | "3" => 3 | "4" => 4
  | "5" => 5 | "6" => 6 | "7" => 7 | "8" => 8 | "9" => 9
  | "a" => 10 | "b" => 11 | "c" => 12 | "d" => 13 | "e" => 14
  | _ => 15
  end%char%N.

(** The element the last mutation of key [k] in [ms] writes, if [ms]
    mutates [k] at all. *)
Fixpoint lastWritten {Account : Type} (serialize : Account → Buffer)
    (k : string) (ms : list (Mutation Account)) : option AccountCacheElement :=
  match ms with
  | [] => None
  | m :: r =>
      match lastWritten serialize k r with
      | Some e => Some e
      | None => if decide (mutationKey m = k) then Some (mutationElem serialize m)
                else None
      end
  end.

Definition isNormal {A : Type} (c : Completion A) : bool :=
  match c with
  | Normal _ => true
  | Throw _ => false
  end.

(** Whether a call returns normally in a state. *)
Definition returns {Account : Type} (serialize : Account → Buffer)
    (op : Op Account) (s : Cache) : bool :=
  match op with
  | OpMutate m => isNormal (mutate serialize m s).1
  | OpGet a => isNormal (get a s).1
  | OpCheckpoint => isNormal (checkpoint s).1
  | OpCommit => isNormal (commit s).1
  | OpRevert => isNormal (revert s).1
  | OpFlush => isNormal (flush s).1
  end.

(** Every call of a run returns normally. *)
Fixpoint allReturn {Account : Type} (serialize : Account → Buffer)
    (ops : list (Op Account)) (s : Cache) : bool :=
  match ops with
  | [] => true
  | op :: r => returns serialize op s && allReturn serialize r (exec serialize op s)
  end.

(** Checkpoints opened minus checkpoints closed by a run. *)
Fixpoint depthChange {Account : Type} (ops : list (Op Account)) : Z :=
  match ops with
  | [] => 0
  | OpCheckpoint :: r => depthChange r + 1
  | OpCommit :: r | OpRevert :: r => depthChange r - 1
  | _ :: r => depthChange r
  end.

Definition isGet {Account : Type} (op : Op Account) : bool :=
  match op with
  | OpGet _ => true
  | _ => false
  end.

Definition isPut {Account : Type} (op : Op Account) : bool :=
  match op with
  | OpMutate (Put _ _) => true
  | _ => false
  end.

Definition isDel {Account : Type} (op : Op Account) : bool :=
  match op with
  | OpMutate (Del _) => true
  | _ => false
  end.

(** How many calls of a run satisfy [p]. *)
Definition countOps {Account : Type} (p : Op Account → bool)
    (ops : list (Op Account)) : Z :=
  Z.of_nat (length (filter (λ op, p op = true) ops)).

(** Two states of the object that differ at most in the counters. *)
Definition sameButStats (s1 s2 : Cache) : Prop :=
  _backend s1 = _backend s2 ∧ _diffCache s1 = _diffCache s2 ∧
  _checkpoints s1 = _checkpoints s2.



(** Calls that work at the current checkpoint height only: put, del, get
    and flush. *)
Definition isLocal {Account : Type} (op : Op Account) : bool :=
  match op with
  | OpMutate _ | OpGet _ | OpFlush => true
  | _ => false
  end.

(** * Properties *)

(** ** Arrays *)

Section arrays.
Context {A : Type}.
Implicit Types (l : list A) (i : Z).

Lemma arrayGet_Some l i x :
  arrayGet l i = Some x ↔ (0 ≤ i)%Z ∧ l !! Z.to_nat i = Some x.
Proof.
  unfold arrayGet. case_decide.
  - split; [by intros ?|by intros [_ ?]].
  - split; [done|]. intros [? _]. lia.
Qed.

Lemma arrayGet_arraySet_eq l i x y :
  arrayGet l i = Some x → arrayGet (arraySet l i y) i = Some y.
Proof.
  intros [Hi Hx]%arrayGet_Some. apply arrayGet_Some. split; [done|].
  unfold arraySet. apply list_lookup_insert_eq. by eapply lookup_lt_Some.
Qed.

Lemma arraySet_length l i y : length (arraySet l i y) = length l.
Proof. apply length_insert. Qed.

Lemma arrayGet_top l i x :
  Z.of_nat (length l) = i → arrayGet (l ++ [x]) i = Some x.
Proof.
  intros <-. apply arrayGet_Some. split; [lia|].
  rewrite Nat2Z.id. by rewrite lookup_app_r, Nat.sub_diag.
Qed.

Lemma arraySet_top l i x y :
  Z.of_nat (length l) = i → arraySet (l ++ [x]) i y = l ++ [y].
Proof.
  intros <-. unfold arraySet. rewrite Nat2Z.id.
  replace (length l) with (length l + 0) by lia.
  by rewrite insert_app_r.
Qed.

Lemma pop_app l x : pop (l ++ [x]) = Some (x, l).
Proof. induction l as [|y l IH]; simpl; [done|]. by rewrite IH. Qed.

Lemma pop_None l : pop l = None ↔ l = [].
Proof.
  destruct l as [|x l]; simpl; [done|].
  destruct (pop l) as [[??]|]; by split.
Qed.

Lemma pop_Some l x r : pop l = Some (x, r) ↔ l = r ++ [x].
Proof.
  split; [|intros ->; apply pop_app].
  revert x r. induction l as [|y l IH]; intros x r; simpl; [done|].
  destruct (pop l) as [[z r']|] eqn:Hp.
  - intros [= <- <-]. simpl. f_equal. by apply IH.
  - intros [= <- <-]. apply pop_None in Hp as ->. done.
Qed.
End arrays.

(** ** The ordered map's iteration *)

Section entries.
Context {V : Type}.
Implicit Types (m : gmap string V).

Lemma entries_perm m : OrderedMap.entries m ≡ₚ map_to_list m.
Proof. apply merge_sort_Permutation. Qed.

Lemma elem_of_entries m k v : (k, v) ∈ OrderedMap.entries m ↔ m !! k = Some v.
Proof. rewrite entries_perm. apply elem_of_map_to_list. Qed.

Lemma NoDup_entries_keys m : NoDup (OrderedMap.entries m).*1.
Proof. rewrite entries_perm. apply NoDup_fst_map_to_list. Qed.

Lemma elem_of_entries_keys m k : k ∈ (OrderedMap.entries m).*1 ↔ is_Some (m !! k).
Proof.
  rewrite list_elem_of_fmap. split.
  - intros [[k' v] [-> Hin]]. apply elem_of_entries in Hin. eauto.
  - intros [v Hv]. exists (k, v). split; [done|]. by apply elem_of_entries.
Qed.

Lemma entries_empty : OrderedMap.entries (∅ : gmap string V) = [].
Proof. unfold OrderedMap.entries. by rewrite map_to_list_empty. Qed.


Lemma entries_nil m : OrderedMap.entries m = [] → m = ∅.
Proof.
  intros H. apply map_to_list_empty_iff. apply Permutation_nil_r.
  rewrite <- H. symmetry. apply entries_perm.
Qed.

Lemma found_true m k : OrderedMap.found m k = true ↔ is_Some (m !! k).
Proof. unfold OrderedMap.found. apply bool_decide_eq_true. Qed.

Lemma found_false m k : OrderedMap.found m k = false ↔ m !! k = None.
Proof.
  unfold OrderedMap.found. rewrite bool_decide_eq_false.
  by rewrite eq_None_not_Some.
Qed.
End entries.

(** ** The bounded store *)

Section lru.
Context {V : Type}.
Implicit Types (l : list (string * V)) (c : LRUCache.t V).

Lemma assoc_without_eq k l : LRUCache.assoc k (LRUCache.without k l) = None.
Proof.
  unfold LRUCache.without. induction l as [|[k' v] l IH]; [done|].
  rewrite filter_cons. simpl. case_decide; [|done].
  simpl. by case_decide.
Qed.

Lemma assoc_without_ne k k' l :
  k ≠ k' → LRUCache.assoc k' (LRUCache.without k l) = LRUCache.assoc k' l.
Proof.
  intros Hne. unfold LRUCache.without. induction l as [|[k0 v] l IH]; [done|].
  rewrite filter_cons. simpl. repeat (case_decide; simpl); congruence.
Qed.

Lemma assoc_removelast_head k v l n :
  0 < n →
  LRUCache.assoc k
    (if decide (n < length ((k, v) :: l)) then removelast ((k, v) :: l)
     else (k, v) :: l) = Some v.
Proof.
  intros Hn. case_decide as Hlen.
  - destruct l as [|p l]; [simpl in Hlen; lia|].
    change (removelast ((k, v) :: p :: l)) with ((k, v) :: removelast (p :: l)).
    simpl. by case_decide.
  - simpl. by case_decide.
Qed.

Lemma lru_peek_set_eq c k v : LRUCache.peek (LRUCache.set c k v) k = Some v.
Proof. unfold LRUCache.peek, LRUCache.set. simpl. apply assoc_removelast_head. lia. Qed.

Lemma lru_peek_delete_eq c k : LRUCache.peek (LRUCache.delete c k) k = None.
Proof. apply assoc_without_eq. Qed.

Lemma lru_peek_delete_ne c k k' :
  k ≠ k' → LRUCache.peek (LRUCache.delete c k) k' = LRUCache.peek c k'.
Proof. apply assoc_without_ne. Qed.

Lemma lru_get_fst c k : (LRUCache.get c k).1 = LRUCache.peek c k.
Proof. unfold LRUCache.get, LRUCache.peek. by destruct (LRUCache.assoc k _). Qed.

Lemma lru_peek_get c k k' :
  LRUCache.peek (LRUCache.get c k).2 k' = LRUCache.peek c k'.
Proof.
  unfold LRUCache.get, LRUCache.peek.
  destruct (LRUCache.assoc k (LRUCache.items c)) as [v|] eqn:Hk; [|done].
  simpl. case_decide as Heq; [by subst|]. by apply assoc_without_ne.
Qed.
End lru.

(** ** Backend access *)

Lemma cacheGet_fst b k : (cacheGet b k).1 = backendLookup b k.
Proof.
  destruct b as [c|m]; simpl; [|done].
  rewrite <- lru_get_fst. by destruct (LRUCache.get c k).
Qed.

Lemma cacheGet_lookup b k k' :
  backendLookup (cacheGet b k).2 k' = backendLookup b k'.
Proof.
  destruct b as [c|m]; simpl; [|done].
  rewrite <- (lru_peek_get c k k'). by destruct (LRUCache.get c k).
Qed.

Lemma cacheGet_unbounded b k : isUnbounded b = true → (cacheGet b k).2 = b.
Proof. by destruct b. Qed.

Lemma cacheGet_isUnbounded b k : isUnbounded (cacheGet b k).2 = isUnbounded b.
Proof. destruct b as [c|m]; simpl; [|done]. by destruct (LRUCache.get c k). Qed.

Lemma cacheSet_lookup_eq b k e : backendLookup (cacheSet b k e) k = Some e.
Proof. destruct b; simpl; [apply lru_peek_set_eq|apply lookup_insert_eq]. Qed.

Lemma cacheDelete_lookup_eq b k : backendLookup (cacheDelete b k) k = None.
Proof. destruct b; simpl; [apply lru_peek_delete_eq|apply lookup_delete_eq]. Qed.

Lemma cacheDelete_lookup_ne b k k' :
  k ≠ k' → backendLookup (cacheDelete b k) k' = backendLookup b k'.
Proof.
  destruct b; simpl; intros ?; [by apply lru_peek_delete_ne|by apply lookup_delete_ne].
Qed.

(** ** Backends with room for a set of keys *)

Section lru_room.
Context {V : Type}.
Implicit Types (l : list (string * V)).

Lemma without_keys k l :
  (LRUCache.without k l).*1 = filter (λ k', k' ≠ k) l.*1.
Proof.
  unfold LRUCache.without. induction l as [|[k0 v] l IH]; [done|].
  rewrite fmap_cons, !filter_cons. simpl.
  case_decide; [rewrite fmap_cons; simpl|]; by rewrite IH.
Qed.

Lemma NoDup_without k l : NoDup l.*1 → NoDup (LRUCache.without k l).*1.
Proof. intros Hnd. rewrite without_keys. by apply NoDup_filter. Qed.

Lemma elem_of_without_keys k k' l :
  k' ∈ (LRUCache.without k l).*1 ↔ k' ≠ k ∧ k' ∈ l.*1.
Proof. rewrite without_keys. by rewrite list_elem_of_filter. Qed.

Lemma assoc_Some_elem k l v : LRUCache.assoc k l = Some v → k ∈ l.*1.
Proof.
  induction l as [|[k0 v0] l IH]; [done|]. simpl. case_decide.
  - subst k0. intros _. apply elem_of_cons. by left.
  - intros Hl. apply elem_of_cons. right. by apply IH.
Qed.

Lemma NoDup_moved_front k (v : V) l :
  NoDup l.*1 → NoDup ((k, v) :: LRUCache.without k l).*1.
Proof.
  intros Hnd. rewrite fmap_cons. apply NoDup_cons. split.
  - simpl. rewrite elem_of_without_keys. by intros [? _].
  - by apply NoDup_without.
Qed.

Lemma elem_of_moved_front k (v : V) k' l :
  k' ∈ ((k, v) :: LRUCache.without k l).*1 → k' = k ∨ k' ∈ l.*1.
Proof.
  rewrite fmap_cons, elem_of_cons. simpl. rewrite elem_of_without_keys.
  intros [?|[_ ?]]; auto.
Qed.
End lru_room.

Lemma keys_length_le (K : gset string) (ks : list string) :
  NoDup ks → (∀ k, k ∈ ks → k ∈ K) → length ks ≤ size K.
Proof.
  intros Hnd Hsub. rewrite <- (size_list_to_set (C := gset string) ks) by done.
  apply subseteq_size. intros k Hk. apply elem_of_list_to_set in Hk. auto.
Qed.

Lemma lru_set_no_eviction K (c : LRUCache.t AccountCacheElement) k v :
  fits K (LruBackend c) → k ∈ K →
  LRUCache.set c k v
    = LRUCache.mk (LRUCache.max c) ((k, v) :: LRUCache.without k (LRUCache.items c)).
Proof.
  intros (Hnd & Hsub & Hsize) Hk. unfold LRUCache.set. f_equal.
  case_decide as Hlen; [|done]. exfalso.
  pose proof (keys_length_le K ((k, v) :: LRUCache.without k (LRUCache.items c)).*1)
    as Hle.
  rewrite length_fmap in Hle. cut (length ((k, v) :: LRUCache.without k
    (LRUCache.items c)) ≤ size K); [lia|].
  apply Hle; [by apply NoDup_moved_front|].
  intros k' [->|Hin]%elem_of_moved_front; auto.
Qed.


Lemma cacheSet_fits K b k e : fits K b → k ∈ K → fits K (cacheSet b k e).
Proof.
  destruct b as [c|m]; [|done]. intros Hfit Hk.
  change (fits K (LruBackend (LRUCache.set c k e))).
  rewrite (lru_set_no_eviction K c k e Hfit Hk).
  destruct Hfit as (Hnd & Hsub & Hsize). split_and!.
  - by apply (NoDup_moved_front k e).
  - intros k' Hin. apply (elem_of_moved_front k e) in Hin as [->|Hin]; auto.
  - done.
Qed.

Lemma cacheSet_lookup_other K b k k' e :
  fits K b → k ∈ K → k ≠ k' →
  backendLookup (cacheSet b k e) k' = backendLookup b k'.
Proof.
  destruct b as [c|m]; intros Hfit Hk Hne.
  - change (LRUCache.peek (LRUCache.set c k e) k' = LRUCache.peek c k').
    rewrite (lru_set_no_eviction K c k e Hfit Hk). unfold LRUCache.peek. simpl.
    case_decide; [done|]. by apply assoc_without_ne.
  - by apply lookup_insert_ne.
Qed.

Lemma cacheGet_fits K b k : fits K b → fits K (cacheGet b k).2.
Proof.
  destruct b as [c|m]; [|done]. intros (Hnd & Hsub & Hsize). simpl.
  unfold LRUCache.get.
  destruct (LRUCache.assoc k (LRUCache.items c)) as [v|] eqn:Hk; simpl; [|done].
  split_and!.
  - by apply (NoDup_moved_front k v).
  - intros k' Hin. apply (elem_of_moved_front k v) in Hin as [->|Hin]; [|by auto].
    apply Hsub. by eapply assoc_Some_elem.
  - done.
Qed.

Lemma cacheDelete_fits K b k : fits K b → fits K (cacheDelete b k).
Proof.
  destruct b as [c|m]; [|done]. intros (Hnd & Hsub & Hsize). simpl. split_and!.
  - by apply NoDup_without.
  - intros k' [_ Hin]%elem_of_without_keys. auto.
  - done.
Qed.

Lemma roomFor_fits keys b :
  roomFor keys b → fits (roomKeys keys b) b ∧ ∀ k, k ∈ keys → k ∈ roomKeys keys b.
Proof.
  destruct b as [c|m]; simpl.
  - intros [Hnd Hsize]. split; [split_and!; [done| |done]|].
    + intros k Hk. apply elem_of_list_to_set, elem_of_app. by left.
    + intros k Hk. apply elem_of_list_to_set, elem_of_app. by right.
  - intros _. split; [done|]. intros k Hk. by apply elem_of_list_to_set.
Qed.

(** ** What one call does *)

Lemma currentLayer_Some s d :
  currentLayer s = Some d ↔
  (0 ≤ _checkpoints s)%Z ∧ _diffCache s !! Z.to_nat (_checkpoints s) = Some d.
Proof. apply arrayGet_Some. Qed.

Lemma arraySet_id (l : list DiffMap) i d : arrayGet l i = Some d → arraySet l i d = l.
Proof. intros [_ H]%arrayGet_Some. by apply list_insert_id. Qed.

Lemma saveCachePreState_spec k s d :
  currentLayer s = Some d →
  _saveCachePreState k s =
    (Normal (),
     mkCache (if OrderedMap.found d k then _backend s else (cacheGet (_backend s) k).2)
       (arraySet (_diffCache s) (_checkpoints s) (savedLayer d k (_backend s)))
       (_checkpoints s) (_stats s)).
Proof.
  intros Hd. unfold _saveCachePreState, savedLayer. unfold currentLayer in Hd.
  rewrite Hd. destruct (OrderedMap.found d k) eqn:Hf.
  - rewrite arraySet_id by done. by destruct s.
  - rewrite <- cacheGet_fst. by destruct (cacheGet (_backend s) k).
Qed.

Lemma saveCachePreState_throw k s :
  currentLayer s = None → _saveCachePreState k s = (Throw TypeError, s).
Proof. unfold _saveCachePreState, currentLayer. by intros ->. Qed.

Section mutate.
Context {Account : Type} (serialize : Account → Buffer).
Implicit Types (m : Mutation Account) (s : Cache) (d : DiffMap).

Lemma mutate_spec m s d :
  currentLayer s = Some d →
  mutate serialize m s =
    (Normal (),
     mkCache
       (cacheSet
          (if OrderedMap.found d (mutationKey m) then _backend s
           else (cacheGet (_backend s) (mutationKey m)).2)
          (mutationKey m) (mutationElem serialize m))
       (arraySet (_diffCache s) (_checkpoints s)
          (savedLayer d (mutationKey m) (_backend s)))
       (_checkpoints s) (mutationStats m (_stats s))).
Proof.
  intros Hd. destruct m as [a [acc|]|a]; simpl; unfold put, del, bind;
    rewrite (saveCachePreState_spec _ _ _ Hd); reflexivity.
Qed.

Lemma mutate_throw m s :
  currentLayer s = None → mutate serialize m s = (Throw TypeError, s).
Proof.
  intros Hd. destruct m as [a acc|a]; simpl; unfold put, del, bind;
    by rewrite (saveCachePreState_throw _ _ Hd).
Qed.

Lemma mutate_currentLayer m s d :
  currentLayer s = Some d →
  currentLayer (mutate serialize m s).2 =
    Some (savedLayer d (mutationKey m) (_backend s)).
Proof.
  intros Hd. rewrite (mutate_spec _ _ _ Hd). simpl.
  unfold currentLayer. simpl. by eapply arrayGet_arraySet_eq.
Qed.

Lemma mutate_lookup_key m s d :
  currentLayer s = Some d →
  backendLookup (_backend (mutate serialize m s).2) (mutationKey m) =
    Some (mutationElem serialize m).
Proof. intros Hd. rewrite (mutate_spec _ _ _ Hd). simpl. apply cacheSet_lookup_eq. Qed.

Lemma mutate_lookup_other K m s k :
  fits K (_backend s) → mutationKey m ∈ K → k ≠ mutationKey m →
  backendLookup (_backend (mutate serialize m s).2) k = backendLookup (_backend s) k.
Proof.
  intros Hfit Hin Hne. destruct (currentLayer s) as [d|] eqn:Hd.
  - rewrite (mutate_spec _ _ _ Hd). simpl.
    rewrite (cacheSet_lookup_other K); [|by destruct (OrderedMap.found _ _);
      [|apply cacheGet_fits]|done|done].
    destruct (OrderedMap.found _ _); [done|apply cacheGet_lookup].
  - by rewrite (mutate_throw _ _ Hd).
Qed.

Lemma mutate_fits K m s :
  fits K (_backend s) → mutationKey m ∈ K →
  fits K (_backend (mutate serialize m s).2).
Proof.
  intros Hfit Hin. destruct (currentLayer s) as [d|] eqn:Hd.
  - rewrite (mutate_spec _ _ _ Hd). simpl. apply cacheSet_fits; [|done].
    destruct (OrderedMap.found _ _); [done|by apply cacheGet_fits].
  - by rewrite (mutate_throw _ _ Hd).
Qed.
End mutate.

Lemma savedLayer_lookup_eq d k b :
  savedLayer d k b !! k = Some (default (backendLookup b k) (d !! k)).
Proof.
  unfold savedLayer. destruct (OrderedMap.found d k) eqn:Hf.
  - apply found_true in Hf as [pre Hpre]. by rewrite Hpre.
  - apply found_false in Hf. rewrite Hf. apply lookup_insert_eq.
Qed.

Lemma savedLayer_lookup_ne d k k' b : k ≠ k' → savedLayer d k b !! k' = d !! k'.
Proof.
  intros Hne. unfold savedLayer. destruct (OrderedMap.found d k); [done|].
  by apply lookup_insert_ne.
Qed.

Lemma savedLayer_recorded d k b pre : d !! k = Some pre → savedLayer d k b = d.
Proof.
  intros Hpre. unfold savedLayer.
  assert (OrderedMap.found d k = true) as -> by (apply found_true; eauto). done.
Qed.

Lemma get_spec a s :
  get a s =
    (Normal (backendLookup (_backend s) (addressHex a)),
     mkCache (cacheGet (_backend s) (addressHex a)).2 (_diffCache s) (_checkpoints s)
       (match backendLookup (_backend s) (addressHex a) with
        | Some _ => incrHits (incrReads (_stats s))
        | None => incrReads (_stats s)
        end)).
Proof.
  unfold get. rewrite <- cacheGet_fst.
  by destruct (cacheGet (_backend s) (addressHex a)) as [[e|] b].
Qed.

(** *** flush *)

Lemma presentPairs_ext keys b b' :
  (∀ k, backendLookup b' k = backendLookup b k) →
  presentPairs keys b' = presentPairs keys b.
Proof.
  intros H. induction keys as [|k keys IH]; [done|].
  simpl. by rewrite H, IH.
Qed.

Lemma flushLoop_spec keys b acc :
  (flushLoop keys b acc).1 = acc ++ presentPairs keys b ∧
  (∀ k, backendLookup (flushLoop keys b acc).2 k = backendLookup b k) ∧
  isUnbounded (flushLoop keys b acc).2 = isUnbounded b ∧
  (isUnbounded b = true → (flushLoop keys b acc).2 = b).
Proof.
  revert b acc. induction keys as [|k keys IH]; intros b acc; simpl.
  { by rewrite app_nil_r. }
  pose proof (cacheGet_fst b k) as Hfst.
  pose proof (cacheGet_lookup b k) as Hlk.
  pose proof (cacheGet_isUnbounded b k) as Hub.
  pose proof (cacheGet_unbounded b k) as Hid.
  destruct (cacheGet b k) as [e b']. simpl in *. subst e.
  destruct (IH b' (match backendLookup b k with
                   | Some e => acc ++ [(k, e)]
                   | None => acc
                   end)) as (H1 & H2 & H3 & H4).
  split_and!.
  - rewrite H1, (presentPairs_ext keys b b' Hlk).
    destruct (backendLookup b k); simpl; [by rewrite <- app_assoc|done].
  - intros k'. by rewrite H2.
  - congruence.
  - intros Hu. rewrite H4 by congruence. auto.
Qed.

Lemma flush_spec s d :
  currentLayer s = Some d →
  (flush s).1 = Normal (presentPairs (OrderedMap.entries d).*1 (_backend s)) ∧
  _diffCache (flush s).2 = arraySet (_diffCache s) (_checkpoints s) ∅ ∧
  _checkpoints (flush s).2 = _checkpoints s ∧
  _stats (flush s).2 = _stats s ∧
  (∀ k, backendLookup (_backend (flush s).2) k = backendLookup (_backend s) k) ∧
  (isUnbounded (_backend s) = true → _backend (flush s).2 = _backend s).
Proof.
  intros Hd. unfold flush. unfold currentLayer in Hd. rewrite Hd.
  destruct (flushLoop_spec (OrderedMap.entries d).*1 (_backend s) [])
    as (H1 & H2 & _ & H4).
  destruct (flushLoop _ _ _) as [items b]. simpl in *. by subst items.
Qed.

Lemma flush_throw s : currentLayer s = None → flush s = (Throw TypeError, s).
Proof. unfold flush, currentLayer. by intros ->. Qed.

Lemma flush_currentLayer s d :
  currentLayer s = Some d → currentLayer (flush s).2 = Some ∅.
Proof.
  intros Hd. destruct (flush_spec s d Hd) as (_ & H2 & H3 & _).
  unfold currentLayer. rewrite H2, H3. by eapply arrayGet_arraySet_eq.
Qed.

Lemma elem_of_presentPairs keys b k e :
  (k, e) ∈ presentPairs keys b ↔ k ∈ keys ∧ backendLookup b k = Some e.
Proof.
  induction keys as [|k0 keys IH]; simpl.
  { rewrite !elem_of_nil. tauto. }
  destruct (backendLookup b k0) as [e0|] eqn:H0;
    rewrite ?elem_of_cons, IH, ?elem_of_cons.
  - split.
    + intros [[= -> ->]|[? ?]]; auto.
    + intros [[->|?] He]; [left; congruence|auto].
  - split.
    + intros [? ?]; auto.
    + intros [[->|?] He]; [congruence|auto].
Qed.

(** *** revert *)

(** While nothing is evicted, the loop of [revert] leaves at every key the
    pre-image the diff map records for it, and leaves the other keys alone. *)
Lemma revertLoop_lookup K es b k :
  fits K b → Forall (λ p, p.1 ∈ K) es → NoDup es.*1 →
  backendLookup (revertLoop es b) k =
    match list_to_map (M := gmap string _) es !! k with
    | Some pre => pre
    | None => backendLookup b k
    end.
Proof.
  intros Hfit Hall. revert b Hfit.
  induction Hall as [|[k0 pre0] es Hk0 _ IH]; intros b Hfit Hnd; simpl.
  { by rewrite lookup_empty. }
  apply NoDup_cons in Hnd as [Hnotin Hnd]. simpl in Hk0.
  rewrite IH; [|by destruct pre0; [apply cacheSet_fits|apply cacheDelete_fits]|done].
  destruct (decide (k0 = k)) as [->|Hne].
  - rewrite lookup_insert_eq.
    rewrite (not_elem_of_list_to_map_1 (M := gmap string)) by done.
    destruct pre0; [apply cacheSet_lookup_eq|apply cacheDelete_lookup_eq].
  - rewrite lookup_insert_ne by done.
    destruct (list_to_map es !! k); [done|].
    destruct pre0; [by apply (cacheSet_lookup_other K)|by apply cacheDelete_lookup_ne].
Qed.

Lemma list_to_map_entries (d : DiffMap) k :
  list_to_map (M := gmap string _) (OrderedMap.entries d) !! k = d !! k.
Proof.
  destruct (d !! k) as [pre|] eqn:Hk.
  - apply (elem_of_list_to_map_1 (M := gmap string)); [apply NoDup_entries_keys|].
    by apply elem_of_entries.
  - apply (not_elem_of_list_to_map_1 (M := gmap string)).
    rewrite elem_of_entries_keys, Hk. by intros [??].
Qed.

Lemma revert_spec s d rest :
  _diffCache s = rest ++ [d] →
  revert s =
    (Normal (),
     mkCache (revertLoop (OrderedMap.entries d) (_backend s)) rest
       (_checkpoints s - 1) (_stats s)).
Proof. intros Hdc. unfold revert. simpl. by rewrite Hdc, pop_app. Qed.

Lemma revert_throw s :
  _diffCache s = [] →
  revert s = (Throw TypeError, setCheckpoints (_checkpoints s - 1) s).
Proof. intros Hdc. unfold revert. simpl. by rewrite Hdc. Qed.

(** *** commit *)

Lemma commitLoop_frame es s :
  _backend (commitLoop es s).2 = _backend s ∧
  _stats (commitLoop es s).2 = _stats s ∧
  _checkpoints (commitLoop es s).2 = _checkpoints s ∧
  length (_diffCache (commitLoop es s).2) = length (_diffCache s).
Proof.
  revert s. induction es as [|[k e] es IH]; intros s; simpl; [done|].
  destruct (arrayGet _ _) as [parent|]; [|done].
  destruct (OrderedMap.getElementByKey parent k).
  - apply IH.
  - destruct (IH (setDiffCache (arraySet (_diffCache s) (_checkpoints s)
      (OrderedMap.setElement parent k e)) s)) as (H1 & H2 & H3 & H4).
    rewrite H1, H2, H3, H4. simpl. by rewrite arraySet_length.
Qed.

Lemma commit_frame s :
  _backend (commit s).2 = _backend s ∧ _stats (commit s).2 = _stats s.
Proof.
  unfold commit. simpl. destruct (pop (_diffCache s)) as [[d rest]|]; [|done].
  destruct (commitLoop_frame (OrderedMap.entries d)
    (setDiffCache rest (setCheckpoints (_checkpoints s - 1) s))) as (H1 & H2 & _).
  by rewrite H1, H2.
Qed.

(** ** Checkpoint, mutate, revert *)

Lemma top_currentLayer (L : list DiffMap) s d :
  _diffCache s = L ++ [d] → _checkpoints s = Z.of_nat (length L) →
  currentLayer s = Some d.
Proof. intros Hdc Hc. unfold currentLayer. rewrite Hdc. by apply arrayGet_top. Qed.

Lemma savedLayer_is_Some d k k' b :
  is_Some (savedLayer d k b !! k') → k' = k ∨ is_Some (d !! k').
Proof.
  destruct (decide (k = k')) as [->|Hne]; [by left|].
  rewrite savedLayer_lookup_ne by done. by right.
Qed.

Section roundtrip.
Context {Account : Type} (serialize : Account → Buffer).
Implicit Types (m : Mutation Account) (ms : list (Mutation Account)).

Lemma scopeInv_checkpoint K s :
  wellFormed s → fits K (_backend s) →
  scopeInv K (_backend s) (_diffCache s) (checkpoint s).2.
Proof.
  intros Hwf Hfit. exists ∅. simpl. split_and!; [done|by rewrite Hwf|done| |].
  - intros k [? Hk]. by rewrite lookup_empty in Hk.
  - intros k. by rewrite lookup_empty.
Qed.

Lemma scopeInv_mutate K b0 L s m :
  mutationKey m ∈ K → scopeInv K b0 L s → scopeInv K b0 L (mutate serialize m s).2.
Proof.
  intros Hin (d & Hdc & Hc & Hfit & Hdom & Hk).
  pose proof (top_currentLayer L s d Hdc Hc) as Hd.
  exists (savedLayer d (mutationKey m) (_backend s)). split_and!.
  - rewrite (mutate_spec _ _ _ _ Hd). simpl. rewrite Hdc. by apply arraySet_top.
  - by rewrite (mutate_spec _ _ _ _ Hd).
  - by apply mutate_fits.
  - intros k [->|Hs]%savedLayer_is_Some; auto.
  - intros k. destruct (decide (mutationKey m = k)) as [<-|Hne].
    + rewrite savedLayer_lookup_eq. specialize (Hk (mutationKey m)).
      by destruct (d !! mutationKey m).
    + rewrite savedLayer_lookup_ne by done.
      rewrite (mutate_lookup_other serialize K) by done. apply Hk.
Qed.

Lemma scopeInv_mutateAll K b0 L s ms :
  Forall (λ m, mutationKey m ∈ K) ms →
  scopeInv K b0 L s → scopeInv K b0 L (mutateAll serialize ms s).
Proof.
  intros Hall. revert s. induction Hall as [|m ms Hm _ IH]; intros s Hinv; [done|].
  simpl. apply IH. by apply scopeInv_mutate.
Qed.

Lemma scopeInv_revert K b0 L s :
  scopeInv K b0 L s →
  (revert s).1 = Normal () ∧
  _diffCache (revert s).2 = L ∧
  ∀ k, backendLookup (_backend (revert s).2) k = backendLookup b0 k.
Proof.
  intros (d & Hdc & Hc & Hfit & Hdom & Hk). rewrite (revert_spec s d L Hdc). simpl.
  split_and!; [done..|]. intros k.
  rewrite (revertLoop_lookup K); [|done| |apply NoDup_entries_keys].
  - rewrite list_to_map_entries. apply Hk.
  - apply Forall_forall. intros [k0 pre] Hin. apply Hdom.
    apply elem_of_entries in Hin. simpl. eauto.
Qed.

Lemma revert_after_checkpoint s ms :
  wellFormed s → roomFor (mutationKey <$> ms) (_backend s) →
  (revert (mutateAll serialize ms (checkpoint s).2)).1 = Normal () ∧
  ∀ k, backendLookup (_backend (revert (mutateAll serialize ms (checkpoint s).2)).2) k
       = backendLookup (_backend s) k.
Proof.
  intros Hwf [Hfit Hkeys]%roomFor_fits.
  destruct (scopeInv_revert (roomKeys (mutationKey <$> ms) (_backend s))
    (_backend s) (_diffCache s)
    (mutateAll serialize ms (checkpoint s).2)) as (H1 & _ & H3); [|done].
  apply scopeInv_mutateAll; [|by apply scopeInv_checkpoint].
  apply Forall_forall. intros m Hm. apply Hkeys.
  apply list_elem_of_fmap. eauto.
Qed.
End roundtrip.

(** C1 (as amended). Whenever nothing has to be evicted (the backend is
    the unbounded ordered map, or it is the bounded LRU store and its
    capacity is at least the number of distinct keys among those it holds
    and those the sequence touches), for every state whose diff stack holds
    the base layer and one layer per open checkpoint and for every sequence
    of put/del calls made after a [checkpoint()], [revert()] returns and
    restores every touched key to the backend entry (or absence) it had
    before the checkpoint, and leaves every untouched key's backend entry
    unchanged. *)
Theorem revert_roundtrip_no_eviction {Account : Type} (serialize : Account → Buffer)
    (s : Cache) (ms : list (Mutation Account)) :
  wellFormed s → roomFor (mutationKey <$> ms) (_backend s) →
  revertRestores serialize s ms.
Proof.
  intros Hwf Hroom.
  destruct (revert_after_checkpoint serialize s ms Hwf Hroom) as [H1 H2].
  unfold revertRestores. auto.
Qed.

(** The theorem at work on a bounded cache of capacity 2 that holds [A]:
    [checkpoint(); put(A, v2); del(B); revert()] touches two keys, nothing
    is evicted, and the backend is back where it was. *)
Lemma revert_roundtrip_no_eviction_witness :
  wellFormed Sample.bounded2A ∧
  roomFor (mutationKey <$> [Put Sample.A (Some Sample.v2); Del Sample.B])
    (_backend Sample.bounded2A) ∧
  revertRestores Sample.serialize Sample.bounded2A
    [Put Sample.A (Some Sample.v2); Del Sample.B].
Proof.
  assert (roomFor (mutationKey <$> [Put Sample.A (Some Sample.v2); Del Sample.B])
            (_backend Sample.bounded2A)) as Hroom.
  { split; [apply NoDup_singleton|]. vm_compute. lia. }
  split; [reflexivity|]. split; [exact Hroom|].
  apply (revert_roundtrip_no_eviction Sample.serialize Sample.bounded2A);
    [reflexivity|exact Hroom].
Defined.

(** C1 as stated fails on the bounded backend: with capacity 1 and [A]
    cached, [checkpoint(); put(B, v2); revert()] evicts [A], a key the
    sequence never touched, and the revert does not bring it back. *)
Lemma revert_roundtrip_bounded_counterexample :
  wellFormed Sample.bounded1A ∧
  ¬ revertRestores Sample.serialize Sample.bounded1A [Put Sample.B (Some Sample.v2)].
Proof.
  split; [reflexivity|]. intros (_ & _ & Hother).
  specialize (Hother (addressHex Sample.A)).
  assert (addressHex Sample.A ∉
          mutationKey <$> [Put Sample.B (Some Sample.v2)]) as Hnot.
  { intros Hin. apply list_elem_of_singleton in Hin. discriminate Hin. }
  specialize (Hother Hnot). vm_compute in Hother. discriminate Hother.
Qed.


(** ** Commit *)

Lemma getElementByKey_insert_ne (d : DiffMap) k k0 pre :
  k0 ≠ k →
  OrderedMap.getElementByKey (<[k0 := pre]> d) k = OrderedMap.getElementByKey d k.
Proof. intros Hne. unfold OrderedMap.getElementByKey. by rewrite lookup_insert_ne. Qed.

Lemma commitLoop_merge es (L : list DiffMap) parent s :
  NoDup es.*1 →
  _diffCache s = L ++ [parent] → _checkpoints s = Z.of_nat (length L) →
  ∃ parent',
    commitLoop es s = (Normal (), setDiffCache (L ++ [parent']) s) ∧
    ∀ k, parent' !! k =
         match list_to_map (M := gmap string _) es !! k with
         | Some pre =>
             match OrderedMap.getElementByKey parent k with
             | None => Some pre
             | Some _ => parent !! k
             end
         | None => parent !! k
         end.
Proof.
  revert parent s. induction es as [|[k0 pre0] es IH]; intros parent s Hnd Hdc Hc.
  { exists parent. simpl. split; [|done]. rewrite <- Hdc. by destruct s. }
  apply NoDup_cons in Hnd as [Hnotin Hnd]. simpl.
  pose proof (top_currentLayer L s parent Hdc Hc) as Hd. unfold currentLayer in Hd.
  rewrite Hd.
  destruct (OrderedMap.getElementByKey parent k0) as [old|] eqn:Hold.
  - destruct (IH parent s Hnd Hdc Hc) as (parent' & Hrun & Hk).
    exists parent'. split; [done|]. intros k. rewrite Hk.
    destruct (decide (k0 = k)) as [<-|Hne].
    + rewrite (not_elem_of_list_to_map_1 (M := gmap string) es k0) by done.
      by rewrite lookup_insert_eq, Hold.
    + by rewrite lookup_insert_ne.
  - destruct (IH (<[k0 := pre0]> parent)
      (setDiffCache (arraySet (_diffCache s) (_checkpoints s)
         (OrderedMap.setElement parent k0 pre0)) s) Hnd) as (parent' & Hrun & Hk).
    { simpl. rewrite Hdc. by apply arraySet_top. }
    { done. }
    exists parent'. split; [etrans; [exact Hrun|reflexivity]|].
    intros k. rewrite Hk.
    destruct (decide (k0 = k)) as [<-|Hne].
    + rewrite (not_elem_of_list_to_map_1 (M := gmap string) es k0) by done.
      rewrite !lookup_insert_eq. by rewrite Hold.
    + rewrite lookup_insert_ne by done.
      by rewrite getElementByKey_insert_ne, lookup_insert_ne.
Qed.

(** [commit] with a checkpoint open on a well-formed stack: it returns, pops
    the top layer, leaves backend and statistics alone, and merges the
    popped layer into its parent key by key as [mergedEntry] says. *)
Lemma commit_spec s (L : list DiffMap) parent top :
  _diffCache s = L ++ [parent; top] →
  _checkpoints s = (Z.of_nat (length L) + 1)%Z →
  ∃ parent',
    commit s =
      (Normal (),
       mkCache (_backend s) (L ++ [parent']) (_checkpoints s - 1) (_stats s)) ∧
    ∀ k, parent' !! k = mergedEntry parent top k.
Proof.
  intros Hdc Hc. unfold commit. simpl.
  assert (pop (_diffCache s) = Some (top, L ++ [parent])) as ->.
  { apply pop_Some. rewrite Hdc. by rewrite <- app_assoc. }
  destruct (commitLoop_merge (OrderedMap.entries top) L parent
    (setDiffCache (L ++ [parent]) (setCheckpoints (_checkpoints s - 1) s)))
    as (parent' & Hrun & Hk).
  - apply NoDup_entries_keys.
  - done.
  - simpl. lia.
  - exists parent'. split; [by rewrite Hrun|].
    intros k. rewrite Hk. unfold mergedEntry. by rewrite list_to_map_entries.
Qed.

(** The defect in general: whenever the parent layer records that a key was
    absent and the popped layer records an element for it, [commit]
    replaces the recorded absence by that element. *)
Lemma commit_replaces_recorded_absence s (L : list DiffMap) parent top k e :
  _diffCache s = L ++ [parent; top] →
  _checkpoints s = (Z.of_nat (length L) + 1)%Z →
  parent !! k = Some None → top !! k = Some (Some e) →
  ∃ parent', _diffCache (commit s).2 = L ++ [parent'] ∧
             parent' !! k = Some (Some e).
Proof.
  intros Hdc Hc Hparent Htop.
  destruct (commit_spec s L parent top Hdc Hc) as (parent' & Hrun & Hk).
  exists parent'. rewrite Hrun. split; [done|].
  rewrite Hk. unfold mergedEntry, OrderedMap.getElementByKey.
  by rewrite Htop, Hparent.
Qed.

(** C2 (code defect, evaluated at the failing input). On a fresh unbounded
    cache, after [checkpoint(); put(A, v2); checkpoint(); put(A, v3)] the
    outer layer records that [A] was absent and the inner layer records
    [v2]. [commit()] returns, pops the inner layer and leaves the backend
    alone, but it reads the outer entry with [getElementByKey], gets
    [undefined], and overwrites the recorded absence with [v2]; the
    following [revert()] of the outer checkpoint then leaves [A] at [v2]
    although [A] was absent before that checkpoint. *)
Theorem commit_overwrites_absent_preimage :
  backendLookup (_backend Sample.unbounded) (addressHex Sample.A) = None ∧
  _diffCache Sample.nested
    = [∅; {[addressHex Sample.A := None]};
       {[addressHex Sample.A := Some (mkElem (Some Sample.v2))]}] ∧
  _checkpoints Sample.nested = 2%Z ∧
  (commit Sample.nested).1 = Normal () ∧
  _backend (commit Sample.nested).2 = _backend Sample.nested ∧
  _checkpoints (commit Sample.nested).2 = 1%Z ∧
  _diffCache (commit Sample.nested).2
    = [∅; {[addressHex Sample.A := Some (mkElem (Some Sample.v2))]}] ∧
  (revert (commit Sample.nested).2).1 = Normal () ∧
  backendLookup (_backend (revert (commit Sample.nested).2).2) (addressHex Sample.A)
    = Some (mkElem (Some Sample.v2)).
Proof. repeat split; reflexivity. Qed.


(** ** Depth 0 *)

Lemma commitLoop_no_layer es s :
  arrayGet (_diffCache s) (_checkpoints s) = None →
  commitLoop es s = (match es with [] => Normal () | _ => Throw TypeError end, s).
Proof. intros Hn. destruct es as [|[k e] es]; simpl; [done|]. by rewrite Hn. Qed.

(** C3 (as amended). At checkpoint depth 0 neither [commit()] nor
    [revert()] checks the depth or raises a no-open-checkpoint error. Both
    set the depth counter to -1 and pop the base diff layer off the stack.
    [revert()] returns normally and writes the base layer's pre-images back
    into the backend. [commit()] leaves the backend unchanged; it returns
    normally when the base layer is empty and otherwise raises a
    [TypeError] after the pop. Neither changes the statistics counters. *)
Theorem depth0_commit_revert_unchecked (s : Cache) (base : DiffMap) :
  _checkpoints s = 0%Z → _diffCache s = [base] →
  revert s =
    (Normal (),
     mkCache (revertLoop (OrderedMap.entries base) (_backend s)) [] (-1) (_stats s)) ∧
  (commit s).2 = mkCache (_backend s) [] (-1) (_stats s) ∧
  (base = ∅ → (commit s).1 = Normal ()) ∧
  (base ≠ ∅ → (commit s).1 = Throw TypeError).
Proof.
  intros Hc Hdc. split.
  { rewrite (revert_spec s base [] Hdc). by rewrite Hc. }
  unfold commit. simpl. rewrite Hdc, Hc. simpl.
  rewrite commitLoop_no_layer by done. simpl. split; [done|]. split.
  - intros ->. by rewrite entries_empty.
  - intros Hne. destruct (OrderedMap.entries base) eqn:He; [|done].
    by apply entries_nil in He.
Qed.

(** The theorem at work on an unbounded cache after [put(A, v1)]. *)
Lemma depth0_commit_revert_unchecked_witness :
  _checkpoints Sample.unboundedA = 0%Z ∧
  _diffCache Sample.unboundedA = [{[addressHex Sample.A := None]}] ∧
  revert Sample.unboundedA =
    (Normal (),
     mkCache
       (revertLoop (OrderedMap.entries {[addressHex Sample.A := None]})
          (_backend Sample.unboundedA)) [] (-1) (_stats Sample.unboundedA)).
Proof.
  split; [reflexivity|]. split; [reflexivity|].
  apply (depth0_commit_revert_unchecked Sample.unboundedA
           {[addressHex Sample.A := None]}); reflexivity.
Defined.

(** C3 as stated fails: at depth 0, after [put(A, v1)] on a fresh cache,
    [revert()] returns normally, removes [A] from the backend and empties
    the checkpoint stack; on a fresh cache [commit()] returns normally and
    empties the stack as well. *)
Lemma depth0_no_error_counterexample :
  _checkpoints Sample.unboundedA = 0%Z ∧
  (revert Sample.unboundedA).1 = Normal () ∧
  backendLookup (_backend (revert Sample.unboundedA).2) (addressHex Sample.A)
    ≠ backendLookup (_backend Sample.unboundedA) (addressHex Sample.A) ∧
  _diffCache (revert Sample.unboundedA).2 ≠ _diffCache Sample.unboundedA ∧
  _checkpoints Sample.unbounded = 0%Z ∧
  (commit Sample.unbounded).1 = Normal () ∧
  _diffCache (commit Sample.unbounded).2 ≠ _diffCache Sample.unbounded.
Proof.
  split; [reflexivity|]. split; [reflexivity|].
  split; [intros H; vm_compute in H; discriminate H|].
  split; [intros H; vm_compute in H; discriminate H|].
  split; [reflexivity|]. split; [reflexivity|].
  intros H; vm_compute in H; discriminate H.
Qed.


(** ** First-mutation-only capture *)

Section first_mutation.
Context {Account : Type} (serialize : Account → Buffer).
Implicit Types (m : Mutation Account) (ms : list (Mutation Account)).






Lemma wellFormed_top s d :
  wellFormed s → currentLayer s = Some d →
  ∃ L, _diffCache s = L ++ [d] ∧ _checkpoints s = Z.of_nat (length L).
Proof.
  intros Hwf Hd. apply currentLayer_Some in Hd as [Hge Hd]. unfold wellFormed in Hwf.
  destruct (pop (_diffCache s)) as [[d0 L]|] eqn:Hpop.
  - apply pop_Some in Hpop. exists L. rewrite Hpop in Hd, Hwf |- *.
    rewrite length_app in Hwf. simpl in Hwf.
    assert (Z.to_nat (_checkpoints s) = length L) as Hi by lia.
    rewrite Hi in Hd. rewrite lookup_app_r, Nat.sub_diag in Hd by lia.
    simpl in Hd. split; [congruence|lia].
  - apply pop_None in Hpop. rewrite Hpop in Hd. by rewrite lookup_nil in Hd.
Qed.


End first_mutation.




(** C8 (as amended). At checkpoint depth 0 a put/del still records a
    pre-image: the call returns, and the base diff layer (the only layer)
    gains an entry holding the key's backend entry (or absence) when it has
    none for the key, and is left as it is when it already has one. The
    depth stays 0. *)
Theorem depth0_mutation_recorded {Account : Type} (serialize : Account → Buffer)
    (s : Cache) (base : DiffMap) (m : Mutation Account) :
  _checkpoints s = 0%Z → _diffCache s = [base] →
  (mutate serialize m s).1 = Normal () ∧
  _checkpoints (mutate serialize m s).2 = 0%Z ∧
  (base !! mutationKey m = None →
   _diffCache (mutate serialize m s).2
     = [<[mutationKey m := backendLookup (_backend s) (mutationKey m)]> base]) ∧
  (is_Some (base !! mutationKey m) →
   _diffCache (mutate serialize m s).2 = [base]).
Proof.
  intros Hc Hdc.
  assert (currentLayer s = Some base) as Hd.
  { unfold currentLayer. by rewrite Hc, Hdc. }
  rewrite (mutate_spec _ _ _ _ Hd). simpl. rewrite Hc, Hdc.
  split; [done|]. split; [done|]. unfold savedLayer. split.
  - intros Hnone. apply found_false in Hnone. by rewrite Hnone.
  - intros Hsome. apply found_true in Hsome. by rewrite Hsome.
Qed.

(** The theorem at work on a fresh unbounded cache. *)
Lemma depth0_mutation_recorded_witness :
  _checkpoints Sample.unbounded = 0%Z ∧
  _diffCache Sample.unbounded = [∅] ∧
  (mutate Sample.serialize (Put Sample.A (Some Sample.v1)) Sample.unbounded).1
    = Normal ().
Proof.
  split; [reflexivity|]. split; [reflexivity|].
  apply (depth0_mutation_recorded Sample.serialize Sample.unbounded ∅
           (Put Sample.A (Some Sample.v1))); reflexivity.
Defined.

(** C8 as stated fails: on a fresh cache (depth 0) [put(A, v1)] changes the
    base diff layer, which now records that [A] was absent. *)
Lemma depth0_put_recorded_counterexample :
  _checkpoints Sample.unbounded = 0%Z ∧
  _diffCache Sample.unbounded = [∅] ∧
  _diffCache (put Sample.serialize Sample.A (Some Sample.v1) Sample.unbounded).2
    = [{[addressHex Sample.A := None]}] ∧
  _diffCache (put Sample.serialize Sample.A (Some Sample.v1) Sample.unbounded).2
    ≠ _diffCache Sample.unbounded.
Proof.
  split; [reflexivity|]. split; [reflexivity|]. split; [reflexivity|].
  intros H; vm_compute in H; discriminate H.
Qed.


(** ** Flush *)

Lemma flush_empty_layer s :
  currentLayer s = Some ∅ →
  (flush s).1 = Normal [] ∧ currentLayer (flush s).2 = Some ∅.
Proof.
  intros Hd. destruct (flush_spec s ∅ Hd) as (H1 & _).
  rewrite H1, entries_empty. split; [done|]. by eapply flush_currentLayer.
Qed.

Lemma get_currentLayer a s : currentLayer (get a s).2 = currentLayer s.
Proof. by rewrite get_spec. Qed.

Lemma get_lookup a s k :
  backendLookup (_backend (get a s).2) k = backendLookup (_backend s) k.
Proof. rewrite get_spec. simpl. apply cacheGet_lookup. Qed.

Section flush_runs.
Context {Account : Type} (serialize : Account → Buffer).
Implicit Types (ops : list (Op Account)).

Lemma run_snoc ops op s :
  run serialize (ops ++ [op]) s = exec serialize op (run serialize ops s).
Proof. unfold run. by rewrite foldl_app. Qed.

Lemma reads_keep_empty_layer ops s :
  currentLayer s = Some ∅ → Forall (λ op, isRead op = true) ops →
  currentLayer (run serialize ops s) = Some ∅.
Proof.
  intros Hd Hall. revert s Hd.
  induction Hall as [|op ops Hop _ IH]; intros s Hd; [done|].
  simpl. apply IH. destruct op; try discriminate Hop; simpl.
  - by rewrite get_currentLayer.
  - by apply flush_empty_layer.
Qed.

Lemma flush_after_flush ops s d :
  currentLayer s = Some d → Forall (λ op, isRead op = true) ops →
  (flush (run serialize ops (flush s).2)).1 = Normal [].
Proof.
  intros Hd Hall. apply flush_empty_layer, reads_keep_empty_layer; [|done].
  by eapply flush_currentLayer.
Qed.

Lemma flush_reportable s :
  reportable s → ∃ items, (flush s).1 = Normal items ∧ items ≠ [].
Proof.
  intros (d & k & Hd & Hk & [e He]). destruct (flush_spec s d Hd) as (H1 & _).
  eexists. split; [exact H1|]. intros Hnil.
  assert ((k, e) ∈ presentPairs (OrderedMap.entries d).*1 (_backend s)) as Hin.
  { apply elem_of_presentPairs. split; [by apply elem_of_entries_keys|done]. }
  rewrite Hnil in Hin. by apply elem_of_nil in Hin.
Qed.

Lemma mutate_reportable m s d :
  currentLayer s = Some d → reportable (mutate serialize m s).2.
Proof.
  intros Hd. exists (savedLayer d (mutationKey m) (_backend s)), (mutationKey m).
  split_and!.
  - by apply mutate_currentLayer.
  - rewrite savedLayer_lookup_eq. eauto.
  - rewrite (mutate_lookup_key _ _ _ _ Hd). eauto.
Qed.

Lemma get_reportable a s : reportable s → reportable (get a s).2.
Proof.
  intros (d & k & Hd & Hk & He). exists d, k.
  by rewrite get_currentLayer, get_lookup.
Qed.

Lemma run_layer_exists ops s :
  is_Some (currentLayer s) → Forall (λ op, isMutateOrGet op = true) ops →
  is_Some (currentLayer (run serialize ops s)).
Proof.
  intros Hd Hall. revert s Hd.
  induction Hall as [|op ops Hop _ IH]; intros s [d Hd]; [by eauto|].
  simpl. apply IH. destruct op; try discriminate Hop; simpl.
  - rewrite (mutate_currentLayer _ _ _ _ Hd). eauto.
  - rewrite get_currentLayer. eauto.
Qed.

Lemma run_reportable ops s :
  is_Some (currentLayer s) →
  Forall (λ op, isMutateOrGet op = true) ops →
  Exists (λ op, isMutate op = true) ops →
  reportable (run serialize ops s).
Proof.
  intros Hd. induction ops as [|op ops IH] using rev_ind; intros Hall Hex.
  { by apply Exists_nil in Hex. }
  apply Forall_app in Hall as [Hall Hop]. rewrite Forall_singleton in Hop. rewrite run_snoc. destruct op; try discriminate Hop; simpl.
  - destruct (run_layer_exists ops s Hd Hall) as [d' Hd'].
    exact (mutate_reportable m _ d' Hd').
  - apply get_reportable, IH; [done|].
    apply Exists_app in Hex as [Hex|Hex]; [done|].
    apply Exists_cons in Hex as [Hex|Hex]; [discriminate Hex|].
    by apply Exists_nil in Hex.
Qed.
End flush_runs.

Lemma arrayGet_arraySet_ne {A : Type} (l : list A) (i j : Z) (x y : A) :
  arrayGet l i = Some x → j ≠ i → arrayGet (arraySet l i y) j = arrayGet l j.
Proof.
  intros [Hi _]%arrayGet_Some Hne. unfold arrayGet, arraySet.
  case_decide; [|done]. apply list_lookup_insert_ne. lia.
Qed.

(** C5 (as amended). [flush()] works on the diff layer at the current
    checkpoint height (the innermost open checkpoint; the base layer when
    none is open), not on the layer of the oldest open checkpoint. It
    returns, in key order, the pairs (key, backend element at flush time)
    for exactly those keys recorded in that layer that the backend holds,
    replaces that layer (and no other) by an empty one, changes no backend
    value, and changes neither the checkpoint depth nor the statistics. *)
Theorem flush_reports_current_layer (s : Cache) (d : DiffMap) :
  currentLayer s = Some d →
  (flush s).1 = Normal (presentPairs (OrderedMap.entries d).*1 (_backend s)) ∧
  (∀ k e, (k, e) ∈ presentPairs (OrderedMap.entries d).*1 (_backend s) ↔
          is_Some (d !! k) ∧ backendLookup (_backend s) k = Some e) ∧
  currentLayer (flush s).2 = Some ∅ ∧
  (∀ i, i ≠ _checkpoints s →
        arrayGet (_diffCache (flush s).2) i = arrayGet (_diffCache s) i) ∧
  length (_diffCache (flush s).2) = length (_diffCache s) ∧
  _checkpoints (flush s).2 = _checkpoints s ∧
  _stats (flush s).2 = _stats s ∧
  (∀ k, backendLookup (_backend (flush s).2) k = backendLookup (_backend s) k) ∧
  (isUnbounded (_backend s) = true → _backend (flush s).2 = _backend s).
Proof.
  intros Hd. destruct (flush_spec s d Hd) as (H1 & H2 & H3 & H4 & H5 & H6).
  split; [done|]. split.
  { intros k e. by rewrite elem_of_presentPairs, elem_of_entries_keys. }
  split; [by eapply flush_currentLayer|]. split.
  { intros i Hi. rewrite H2. by eapply arrayGet_arraySet_ne. }
  split; [by rewrite H2, arraySet_length|]. done.
Qed.

(** The theorem at work with two checkpoints open. *)
Lemma flush_reports_current_layer_witness :
  currentLayer Sample.twoScopes = Some {[addressHex Sample.B := None]} ∧
  (flush Sample.twoScopes).1
    = Normal (presentPairs
                (OrderedMap.entries
                   ({[addressHex Sample.B := None]} : DiffMap)).*1
                (_backend Sample.twoScopes)).
Proof.
  split; [reflexivity|].
  apply (flush_reports_current_layer Sample.twoScopes
           {[addressHex Sample.B := None]}); reflexivity.
Defined.

(** C5 as stated fails: with two checkpoints open, the outer one having
    recorded [A] and the inner one [B], [flush()] returns [B] only, the
    key of the innermost layer, and resets that layer; the layer of the
    oldest open checkpoint (which records [A]) and the base layer (which
    records nothing) are neither reported nor replaced. *)
Lemma flush_oldest_layer_counterexample :
  _checkpoints Sample.twoScopes = 2%Z ∧
  _diffCache Sample.twoScopes
    = [∅; {[addressHex Sample.A := None]}; {[addressHex Sample.B := None]}] ∧
  oldestOpenLayer Sample.twoScopes = Some {[addressHex Sample.A := None]} ∧
  (flush Sample.twoScopes).1
    = Normal [(addressHex Sample.B, mkElem (Some Sample.v2))] ∧
  (flush Sample.twoScopes).1
    ≠ Normal (presentPairs
                (OrderedMap.entries
                   ({[addressHex Sample.A := None]} : DiffMap)).*1
                (_backend Sample.twoScopes)) ∧
  _diffCache (flush Sample.twoScopes).2
    = [∅; {[addressHex Sample.A := None]}; ∅].
Proof.
  split; [reflexivity|]. split; [reflexivity|]. split; [reflexivity|].
  split; [reflexivity|]. split; [|reflexivity].
  intros H; vm_compute in H; discriminate H.
Qed.


(** C6 (as amended). For every engine state whose current diff layer
    exists, a [flush()] that follows a [flush()] with no call other than
    [get] in between yields the empty sequence. A [flush()] returns a
    non-empty sequence whenever the layer at the current checkpoint height
    records a key the backend holds; in particular whenever, since the
    previous [flush()], only put/del/get calls were made (no checkpoint,
    commit or revert) and at least one of them was a put or del. *)
Theorem flush_twice {Account : Type} (serialize : Account → Buffer)
    (s : Cache) (d : DiffMap) :
  currentLayer s = Some d →
  (flush (flush s).2).1 = Normal [] ∧
  (∀ ops : list (Op Account), Forall (λ op, isRead op = true) ops →
     (flush (run serialize ops (flush s).2)).1 = Normal []) ∧
  (reportable s → ∃ items, (flush s).1 = Normal items ∧ items ≠ []) ∧
  (∀ ops : list (Op Account),
     Forall (λ op, isMutateOrGet op = true) ops →
     Exists (λ op, isMutate op = true) ops →
     ∃ items, (flush (run serialize ops (flush s).2)).1 = Normal items ∧
              items ≠ []).
Proof.
  intros Hd. split; [|split; [|split]].
  - by apply (flush_after_flush serialize [] s d).
  - intros ops Hall. by apply (flush_after_flush serialize ops s d).
  - apply flush_reportable.
  - intros ops Hall Hex. apply flush_reportable, run_reportable; [|done..].
    rewrite (flush_currentLayer s d Hd). eauto.
Qed.

(** The theorem at work on an unbounded cache after [put(A, v1)]. *)
Lemma flush_twice_witness :
  currentLayer Sample.unboundedA = Some {[addressHex Sample.A := None]} ∧
  (flush (flush Sample.unboundedA).2).1 = Normal [].
Proof.
  split; [reflexivity|].
  apply (flush_twice Sample.serialize Sample.unboundedA
           {[addressHex Sample.A := None]}); reflexivity.
Defined.

(** C6 as stated fails in its second half: after [flush(); put(A, v1);
    checkpoint()] a mutation has occurred since the previous flush and is
    tracked (the base layer records [A], the backend holds it), yet the
    next [flush()] reads the empty layer of the new checkpoint and returns
    the empty sequence. A [commit()] then makes the base layer current
    again, and the following [flush()], with no put/del since the one
    before, returns [A]. *)
Lemma flush_after_checkpoint_counterexample :
  _diffCache Sample.mutatedThenCheckpoint
    = [{[addressHex Sample.A := None]}; ∅] ∧
  _checkpoints Sample.mutatedThenCheckpoint = 1%Z ∧
  backendLookup (_backend Sample.mutatedThenCheckpoint) (addressHex Sample.A)
    = Some (mkElem (Some Sample.v1)) ∧
  (flush Sample.mutatedThenCheckpoint).1 = Normal [] ∧
  (flush (commit (flush Sample.mutatedThenCheckpoint).2).2).1
    = Normal [(addressHex Sample.A, mkElem (Some Sample.v1))].
Proof. repeat split; reflexivity. Qed.




(** ** Keys that were never written *)












Section never_seen.
Context {Account : Type} (serialize : Account → Buffer).








End never_seen.


(** ** Well-bracketed runs keep the stack in step with the depth *)

Lemma wellFormed_currentLayer s :
  wellFormed s → (0 ≤ _checkpoints s)%Z → is_Some (currentLayer s).
Proof.
  unfold wellFormed. intros Hwf Hge.
  destruct (lookup_lt_is_Some_2 (_diffCache s) (Z.to_nat (_checkpoints s)))
    as [d Hd]; [lia|].
  exists d. by apply currentLayer_Some.
Qed.


Section bracketed.
Context {Account : Type} (serialize : Account → Buffer).





End bracketed.




(** ** Which calls remove backend entries *)





(** * Further properties of the cache *)

(** ** Cache keys *)

Lemma hexValue_hexDigit n : (n < 16)%N → hexValue (hexDigit n) = n.
Proof.
  intros Hn. rewrite <- (N2Nat.id n).
  assert (N.to_nat n < 16) as Hk by lia.
  remember (N.to_nat n) as k eqn:Ek. clear Ek Hn n.
  do 16 (destruct k as [|k]; [reflexivity|]). lia.
Qed.

Lemma hexDigit_inj n m :
  (n < 16)%N → (m < 16)%N → hexDigit n = hexDigit m → n = m.
Proof.
  intros Hn Hm Heq.
  rewrite <- (hexValue_hexDigit n Hn), <- (hexValue_hexDigit m Hm). by rewrite Heq.
Qed.

Lemma byte_to_N_inj x y : Byte.to_N x = Byte.to_N y → x = y.
Proof.
  intros Heq. pose proof (Byte.of_to_N x) as Hx. pose proof (Byte.of_to_N y) as Hy.
  rewrite Heq in Hx. congruence.
Qed.

Lemma byte_digits_inj x y :
  hexDigit (Byte.to_N x / 16) = hexDigit (Byte.to_N y / 16) →
  hexDigit (Byte.to_N x mod 16) = hexDigit (Byte.to_N y mod 16) →
  x = y.
Proof.
  intros Hhi Hlo. apply byte_to_N_inj.
  pose proof (Byte.to_N_bounded x) as Hx. pose proof (Byte.to_N_bounded y) as Hy.
  apply hexDigit_inj in Hhi;
    [|apply N.Div0.div_lt_upper_bound; lia|apply N.Div0.div_lt_upper_bound; lia].
  apply hexDigit_inj in Hlo; [|by apply N.mod_lt|by apply N.mod_lt].
  rewrite (N.div_mod (Byte.to_N x) 16), (N.div_mod (Byte.to_N y) 16) by done.
  by rewrite Hhi, Hlo.
Qed.

Lemma toStringHex_length b : String.length (toStringHex b) = 2 * length b.
Proof. induction b as [|x b IH]; simpl; [done|]. rewrite IH. lia. Qed.

(** X1. The cache key of an address determines the address: two addresses
    with the same hexadecimal key have the same bytes, so distinct accounts
    never share a cache slot; the key has two characters per byte. *)
Theorem addressHex_inj (a1 a2 : Address) :
  addressHex a1 = addressHex a2 →
  a1 = a2 ∧ String.length (addressHex a1) = 2 * length (buf a1).
Proof.
  intros Heq. split; [|apply toStringHex_length].
  destruct a1 as [b1], a2 as [b2]. unfold addressHex in Heq. simpl in Heq.
  f_equal. revert b2 Heq. induction b1 as [|x b1 IH]; intros [|y b2] Heq;
    simpl in Heq; try discriminate Heq; [done|].
  injection Heq as Hhi Hlo Htl. f_equal; [by apply byte_digits_inj|by apply IH].
Qed.

(** The theorem at work: the key ["0a"] belongs to the address with the
    single byte [0x0a]. *)
Lemma addressHex_inj_witness :
  addressHex Sample.A = addressHex (mkAddress [x0a]) ∧
  Sample.A = mkAddress [x0a].
Proof.
  split; [reflexivity|].
  apply (addressHex_inj Sample.A (mkAddress [x0a])). reflexivity.
Defined.


(** ** Runs of put and del *)

Section mutation_runs.
Context {Account : Type} (serialize : Account → Buffer).
Implicit Types (m : Mutation Account) (ms : list (Mutation Account)).

Lemma mutateAll_lookup_fits K ms s :
  is_Some (currentLayer s) → fits K (_backend s) →
  Forall (λ m, mutationKey m ∈ K) ms →
  ∀ k, backendLookup (_backend (mutateAll serialize ms s)) k =
       match lastWritten serialize k ms with
       | Some e => Some e
       | None => backendLookup (_backend s) k
       end.
Proof.
  intros Hd Hfit Hall. revert s Hd Hfit.
  induction Hall as [|m ms Hm _ IH]; intros s [d Hd] Hfit k; [done|].
  simpl. rewrite IH.
  - destruct (lastWritten serialize k ms); [done|].
    case_decide as Hk.
    + subst k. by apply (mutate_lookup_key serialize m s d).
    + by apply (mutate_lookup_other serialize K).
  - rewrite (mutate_currentLayer serialize m s d Hd). eauto.
  - by apply mutate_fits.
Qed.

Lemma mutateAll_layer_dom ms s d :
  currentLayer s = Some d →
  ∃ d', currentLayer (mutateAll serialize ms s) = Some d' ∧
        (∀ k, is_Some (d' !! k) ↔ is_Some (d !! k) ∨ k ∈ mutationKey <$> ms) ∧
        (∀ k pre, d !! k = Some pre → d' !! k = Some pre).
Proof.
  revert s d. induction ms as [|m ms IH]; intros s d Hd.
  { exists d. split; [done|]. split; [|done]. intros k. rewrite fmap_nil, elem_of_nil.
    tauto. }
  simpl.
  destruct (IH _ _ (mutate_currentLayer serialize m s d Hd)) as (d' & Hd' & Hdom & Hkeep).
  exists d'. split; [done|]. split.
  - intros k. rewrite Hdom, elem_of_cons. split.
    + intros [Hs|Hin]; [|by auto].
      apply savedLayer_is_Some in Hs as [->|Hs]; auto.
    + intros [Hs|[->|Hin]]; [| |by auto]; left.
      * destruct Hs as [pre Hpre].
        destruct (decide (mutationKey m = k)) as [<-|Hne].
        -- rewrite savedLayer_lookup_eq. eauto.
        -- rewrite savedLayer_lookup_ne by done. eauto.
      * rewrite savedLayer_lookup_eq. eauto.
  - intros k pre Hpre. apply Hkeep.
    destruct (decide (mutationKey m = k)) as [<-|Hne].
    + by rewrite (savedLayer_recorded _ _ _ _ Hpre).
    + by rewrite savedLayer_lookup_ne.
Qed.

Lemma mutateAll_layer_new K ms s d :
  currentLayer s = Some d → fits K (_backend s) →
  Forall (λ m, mutationKey m ∈ K) ms →
  ∃ d', currentLayer (mutateAll serialize ms s) = Some d' ∧
        ∀ k, d !! k = None → k ∈ mutationKey <$> ms →
             d' !! k = Some (backendLookup (_backend s) k).
Proof.
  intros Hd Hfit Hall. revert s d Hd Hfit.
  induction Hall as [|m ms Hm _ IH]; intros s d Hd Hfit.
  { exists d. split; [done|]. intros k _ Hin. by apply elem_of_nil in Hin. }
  simpl.
  destruct (IH _ _ (mutate_currentLayer serialize m s d Hd)
              (mutate_fits serialize K m s Hfit Hm)) as (d' & Hd' & Hnew).
  destruct (mutateAll_layer_dom ms _ _ (mutate_currentLayer serialize m s d Hd))
    as (d'' & Hd'' & _ & Hkeep).
  rewrite Hd' in Hd''. injection Hd'' as <-.
  exists d'. split; [done|]. intros k Hnone Hin.
  destruct (decide (mutationKey m = k)) as [<-|Hne].
  - apply Hkeep. rewrite savedLayer_lookup_eq. by rewrite Hnone.
  - apply elem_of_cons in Hin as [->|Hin]; [done|].
    rewrite Hnew; [|by rewrite savedLayer_lookup_ne|done].
    by rewrite (mutate_lookup_other serialize K).
Qed.
End mutation_runs.

(** X2. Last write wins. After any run of put/del calls made in a state
    whose current diff layer exists, and as long as nothing has to be
    evicted, the backend holds at every key the element written by the last
    put/del of that key in the run (for a del, or a put of no account, the
    element with the absent payload), and at every other key what it held
    before. *)
Theorem last_write_wins {Account : Type} (serialize : Account → Buffer)
    (s : Cache) (ms : list (Mutation Account)) (k : string) :
  is_Some (currentLayer s) → roomFor (mutationKey <$> ms) (_backend s) →
  backendLookup (_backend (mutateAll serialize ms s)) k =
    match lastWritten serialize k ms with
    | Some e => Some e
    | None => backendLookup (_backend s) k
    end.
Proof.
  intros Hd [Hfit Hkeys]%roomFor_fits.
  apply (mutateAll_lookup_fits serialize (roomKeys (mutationKey <$> ms) (_backend s)));
    [done..|].
  apply Forall_forall. intros m Hm. apply Hkeys, list_elem_of_fmap. eauto.
Qed.

(** The theorem at work on a bounded cache of capacity 2 that holds [A]:
    after [put(A, v2); del(B); put(A, v3)] the key of [A] holds [v3]. *)
Lemma last_write_wins_witness :
  is_Some (currentLayer Sample.bounded2A) ∧
  roomFor (mutationKey <$> [Put Sample.A (Some Sample.v2); Del Sample.B;
                            Put Sample.A (Some Sample.v3)])
    (_backend Sample.bounded2A) ∧
  backendLookup
    (_backend (mutateAll Sample.serialize
                 [Put Sample.A (Some Sample.v2); Del Sample.B;
                  Put Sample.A (Some Sample.v3)] Sample.bounded2A))
    (addressHex Sample.A) = Some (mkElem (Some Sample.v3)).
Proof.
  assert (is_Some (currentLayer Sample.bounded2A)) as Hd by (eexists; reflexivity).
  assert (roomFor (mutationKey <$> [Put Sample.A (Some Sample.v2); Del Sample.B;
                                    Put Sample.A (Some Sample.v3)])
            (_backend Sample.bounded2A)) as Hroom.
  { split; [apply NoDup_singleton|]. vm_compute. lia. }
  split; [exact Hd|]. split; [exact Hroom|].
  apply (last_write_wins Sample.serialize Sample.bounded2A
           [Put Sample.A (Some Sample.v2); Del Sample.B;
            Put Sample.A (Some Sample.v3)] (addressHex Sample.A) Hd Hroom).
Defined.

(** X3. The diff layer tracks exactly the touched keys. After any run of
    put/del calls the layer of the current height records the keys it
    recorded before together with the keys the run touched, and no other;
    the entries it had are unchanged; and, as long as nothing has to be
    evicted, each key it gained is recorded with the backend entry (or
    absence) the key had before the run. *)
Theorem layer_tracks_touched_keys {Account : Type} (serialize : Account → Buffer)
    (s : Cache) (d : DiffMap) (ms : list (Mutation Account)) :
  currentLayer s = Some d →
  ∃ d', currentLayer (mutateAll serialize ms s) = Some d' ∧
        (∀ k, is_Some (d' !! k) ↔ is_Some (d !! k) ∨ k ∈ mutationKey <$> ms) ∧
        (∀ k pre, d !! k = Some pre → d' !! k = Some pre) ∧
        (roomFor (mutationKey <$> ms) (_backend s) →
         ∀ k, d !! k = None → k ∈ mutationKey <$> ms →
              d' !! k = Some (backendLookup (_backend s) k)).
Proof.
  intros Hd.
  destruct (mutateAll_layer_dom serialize ms s d Hd) as (d' & Hd' & Hdom & Hkeep).
  exists d'. split; [done|]. split; [done|]. split; [done|].
  intros [Hfit Hkeys]%roomFor_fits.
  destruct (mutateAll_layer_new serialize
              (roomKeys (mutationKey <$> ms) (_backend s)) ms s d Hd Hfit)
    as (d'' & Hd'' & Hnew).
  { apply Forall_forall. intros m Hm. apply Hkeys, list_elem_of_fmap. eauto. }
  rewrite Hd' in Hd''. by injection Hd'' as <-.
Qed.

(** The theorem at work on an unbounded cache that holds [A], with a
    checkpoint open. *)
Lemma layer_tracks_touched_keys_witness :
  currentLayer Sample.mutatedOnce
    = Some {[addressHex Sample.A := Some (mkElem (Some Sample.v1))]} ∧
  ∃ d', currentLayer (mutateAll Sample.serialize [Del Sample.B] Sample.mutatedOnce)
          = Some d' ∧
        d' !! addressHex Sample.A = Some (Some (mkElem (Some Sample.v1))).
Proof.
  assert (currentLayer Sample.mutatedOnce
          = Some {[addressHex Sample.A := Some (mkElem (Some Sample.v1))]}) as Hd
    by reflexivity.
  split; [exact Hd|].
  destruct (layer_tracks_touched_keys Sample.serialize Sample.mutatedOnce _
              [Del Sample.B] Hd) as (d' & Hd' & _ & Hkeep & _).
  exists d'. split; [exact Hd'|]. apply Hkeep. reflexivity.
Defined.


(** ** Failing calls *)

Lemma commitLoop_layer_is_Some es s :
  is_Some (currentLayer s) → (commitLoop es s).1 = Normal ().
Proof.
  revert s. induction es as [|[k e] es IH]; intros s [parent Hp]; simpl; [done|].
  unfold currentLayer in Hp. rewrite Hp.
  destruct (OrderedMap.getElementByKey parent k); apply IH.
  - exists parent. done.
  - eexists. unfold currentLayer. simpl. by eapply arrayGet_arraySet_eq.
Qed.

(** X4. How the calls fail. [get] and [checkpoint] never throw. put, del
    and [flush] throw (a [TypeError]) exactly when there is no diff layer at
    the current height, and then leave the object as it was. [revert]
    throws exactly when the stack of layers is empty, and [commit] exactly
    when the stack is empty or the popped layer is not empty and has no
    layer below it at the new height; by then both have already decremented
    the depth counter, and [commit] has popped the layer. *)
Theorem failing_calls {Account : Type} (serialize : Account → Buffer)
    (m : Mutation Account) (a : Address) (s : Cache) :
  (get a s).1 ≠ Throw TypeError ∧
  (checkpoint s).1 = Normal () ∧
  ((mutate serialize m s).1 = Throw TypeError ↔ currentLayer s = None) ∧
  (currentLayer s = None → (mutate serialize m s).2 = s) ∧
  ((flush s).1 = Throw TypeError ↔ currentLayer s = None) ∧
  (currentLayer s = None → (flush s).2 = s) ∧
  ((revert s).1 = Throw TypeError ↔ _diffCache s = []) ∧
  (_diffCache s = [] → (revert s).2 = setCheckpoints (_checkpoints s - 1) s) ∧
  ((commit s).1 = Throw TypeError ↔
     _diffCache s = [] ∨
     ∃ rest top, _diffCache s = rest ++ [top] ∧ top ≠ ∅ ∧
                 arrayGet rest (_checkpoints s - 1) = None) ∧
  (_diffCache s = [] → (commit s).2 = setCheckpoints (_checkpoints s - 1) s) ∧
  (∀ rest top, _diffCache s = rest ++ [top] → top ≠ ∅ →
     arrayGet rest (_checkpoints s - 1) = None →
     (commit s).2 = setDiffCache rest (setCheckpoints (_checkpoints s - 1) s)).
Proof.
  split; [by rewrite get_spec|]. split; [done|]. split.
  { destruct (currentLayer s) as [d|] eqn:Hd.
    - rewrite (mutate_spec serialize m s d Hd). by split.
    - by rewrite (mutate_throw serialize m s Hd). }
  split; [intros Hd; by rewrite (mutate_throw serialize m s Hd)|]. split.
  { destruct (currentLayer s) as [d|] eqn:Hd.
    - destruct (flush_spec s d Hd) as (H1 & _). rewrite H1. by split.
    - by rewrite (flush_throw s Hd). }
  split; [intros Hd; by rewrite (flush_throw s Hd)|]. split.
  { unfold revert. simpl. destruct (pop (_diffCache s)) as [[d rest]|] eqn:Hpop.
    - apply pop_Some in Hpop. rewrite Hpop. simpl. split; [done|].
      intros Hnil. by apply app_nil in Hnil as [_ ?].
    - apply pop_None in Hpop. by split. }
  split; [intros Hnil; by rewrite (revert_throw s Hnil)|]. split.
  { unfold commit. simpl. destruct (pop (_diffCache s)) as [[top rest]|] eqn:Hpop.
    - apply pop_Some in Hpop.
      destruct (arrayGet rest (_checkpoints s - 1)) as [parent|] eqn:Hp.
      + rewrite commitLoop_layer_is_Some by (exists parent; done). split; [done|].
        intros [Hnil|(rest' & top' & Heq & _ & Hnone)].
        * rewrite Hnil in Hpop. by apply app_cons_not_nil in Hpop.
        * rewrite Hpop in Heq. apply app_inj_tail in Heq as [-> _]. congruence.
      + rewrite commitLoop_no_layer by done. simpl.
        destruct (OrderedMap.entries top) eqn:He.
        * apply entries_nil in He. subst top. split; [done|].
          intros [Hnil|(rest' & top' & Heq & Hne & _)].
          -- rewrite Hnil in Hpop. by apply app_cons_not_nil in Hpop.
          -- rewrite Hpop in Heq. apply app_inj_tail in Heq as [_ <-]. done.
        * split; [|done]. intros _. right. exists rest, top. split_and!; [done| |done].
          intros ->. by rewrite entries_empty in He.
    - apply pop_None in Hpop. split; [by left|done]. }
  split.
  { intros Hnil. unfold commit. simpl. by rewrite Hnil. }
  intros rest top Hdc Hne Hnone. unfold commit. simpl. rewrite Hdc, pop_app.
  by rewrite commitLoop_no_layer.
Qed.


(** ** The stack of layers along a run *)

Lemma wellFormed_open s :
  wellFormed s → (1 ≤ _checkpoints s)%Z →
  ∃ L parent top, _diffCache s = L ++ [parent; top] ∧
                  _checkpoints s = (Z.of_nat (length L) + 1)%Z.
Proof.
  unfold wellFormed. intros Hwf Hge.
  destruct (pop (_diffCache s)) as [[top r]|] eqn:Hpop.
  - apply pop_Some in Hpop. destruct (pop r) as [[parent L]|] eqn:Hpop'.
    + apply pop_Some in Hpop'. subst r. exists L, parent, top.
      rewrite Hpop in Hwf |- *. rewrite <- app_assoc. split; [done|].
      rewrite !length_app in Hwf. simpl in Hwf. lia.
    + apply pop_None in Hpop'. subst r. rewrite Hpop in Hwf. simpl in Hwf. lia.
  - apply pop_None in Hpop. rewrite Hpop in Hwf. simpl in Hwf. lia.
Qed.

Section discipline.
Context {Account : Type} (serialize : Account → Buffer).

Lemma returns_wellFormed (op : Op Account) s depth :
  wellFormed s → _checkpoints s = Z.of_nat depth →
  wellBracketed [op] depth = true →
  returns serialize op s = true.
Proof.
  intros Hwf Hc Hb.
  destruct (wellFormed_currentLayer s Hwf) as [d Hd]; [lia|].
  destruct op; simpl in *.
  - by rewrite (mutate_spec serialize m s d Hd).
  - by rewrite get_spec.
  - done.
  - destruct depth as [|n]; [done|].
    destruct (wellFormed_open s Hwf) as (L & parent & top & Hdc & Hc'); [lia|].
    destruct (commit_spec s L parent top Hdc Hc') as (parent' & Hrun & _).
    by rewrite Hrun.
  - destruct depth as [|n]; [done|].
    destruct (wellFormed_top s d Hwf Hd) as (L & Hdc & _).
    by rewrite (revert_spec s d L Hdc).
  - destruct (flush_spec s d Hd) as (H1 & _). by rewrite H1.
Qed.

Lemma exec_depth (op : Op Account) s depth :
  wellFormed s → _checkpoints s = Z.of_nat depth →
  wellBracketed [op] depth = true →
  wellFormed (exec serialize op s) ∧
  _checkpoints (exec serialize op s) = (_checkpoints s + depthChange [op])%Z.
Proof.
  intros Hwf Hc Hb.
  destruct (wellFormed_currentLayer s Hwf) as [d Hd]; [lia|].
  unfold wellFormed in *. destruct op; simpl in *.
  - rewrite (mutate_spec serialize m s d Hd). simpl. rewrite arraySet_length. lia.
  - rewrite get_spec. simpl. lia.
  - rewrite length_app. simpl. lia.
  - destruct depth as [|n]; [done|].
    destruct (wellFormed_open s Hwf) as (L & parent & top & Hdc & Hc'); [lia|].
    destruct (commit_spec s L parent top Hdc Hc') as (parent' & Hrun & _).
    rewrite Hrun. simpl. rewrite length_app. simpl. lia.
  - destruct depth as [|n]; [done|].
    destruct (wellFormed_top s d Hwf Hd) as (L & Hdc & HcL).
    rewrite (revert_spec s d L Hdc). simpl. lia.
  - destruct (flush_spec s d Hd) as (_ & H2 & H3 & _).
    rewrite H2, H3, arraySet_length. lia.
Qed.

Lemma wellBracketed_cons (op : Op Account) ops depth :
  wellBracketed (op :: ops) depth = true →
  wellBracketed [op] depth = true ∧
  wellBracketed ops (Z.to_nat (Z.of_nat depth + depthChange [op])) = true.
Proof.
  destruct op; simpl; intros Hb;
    rewrite ?Z.add_0_r, ?Nat2Z.id; try (by split).
  - split; [done|]. by replace (Z.to_nat (Z.of_nat depth + (0 + 1))) with (S depth) by lia.
  - destruct depth as [|n]; [done|]. split; [done|].
    by replace (Z.to_nat (Z.of_nat (S n) + (0 - 1))) with n by lia.
  - destruct depth as [|n]; [done|]. split; [done|].
    by replace (Z.to_nat (Z.of_nat (S n) + (0 - 1))) with n by lia.
Qed.

Lemma depthChange_cons (op : Op Account) ops :
  depthChange (op :: ops) = (depthChange [op] + depthChange ops)%Z.
Proof. destruct op; simpl; lia. Qed.

Lemma wellBracketed_depth_nonneg (op : Op Account) depth :
  wellBracketed [op] depth = true → (0 ≤ Z.of_nat depth + depthChange [op])%Z.
Proof. destruct op; simpl; try lia; destruct depth; try done; lia. Qed.

Lemma discipline_run (ops : list (Op Account)) s depth :
  wellFormed s → _checkpoints s = Z.of_nat depth →
  wellBracketed ops depth = true →
  allReturn serialize ops s = true ∧
  wellFormed (run serialize ops s) ∧
  _checkpoints (run serialize ops s) = (_checkpoints s + depthChange ops)%Z ∧
  (0 ≤ _checkpoints (run serialize ops s))%Z.
Proof.
  revert s depth. induction ops as [|op ops IH]; intros s depth Hwf Hc Hb.
  { simpl. split_and!; [done..|lia|lia]. }
  apply wellBracketed_cons in Hb as [Hop Hb].
  destruct (exec_depth op s depth Hwf Hc Hop) as [Hwf' Hc'].
  pose proof (wellBracketed_depth_nonneg op depth Hop) as Hge.
  destruct (IH (exec serialize op s)
              (Z.to_nat (Z.of_nat depth + depthChange [op])) Hwf')
    as (H1 & H2 & H3 & H4); [|exact Hb|].
  { rewrite Hc', Hc. lia. }
  change (run serialize (op :: ops) s) with (run serialize ops (exec serialize op s)).
  rewrite depthChange_cons. simpl allReturn.
  rewrite (returns_wellFormed op s depth Hwf Hc Hop), H1.
  split_and!; [done|done|lia|done].
Qed.
End discipline.

(** X5. Stack discipline. Started in a state whose stack holds the base
    layer and one layer per open checkpoint, a run of calls that never
    commits or reverts without an open checkpoint never throws; the stack
    stays in step with the depth counter, and the depth after the run is
    the depth before plus the checkpoints opened minus the checkpoints
    committed or reverted, never negative. *)
Theorem stack_discipline {Account : Type} (serialize : Account → Buffer)
    (ops : list (Op Account)) (s : Cache) (depth : nat) :
  wellFormed s → _checkpoints s = Z.of_nat depth →
  wellBracketed ops depth = true →
  allReturn serialize ops s = true ∧
  wellFormed (run serialize ops s) ∧
  _checkpoints (run serialize ops s) = (_checkpoints s + depthChange ops)%Z ∧
  (0 ≤ _checkpoints (run serialize ops s))%Z.
Proof. apply discipline_run. Qed.

(** The theorem at work on a bounded cache of capacity 1. *)
Lemma stack_discipline_witness :
  wellFormed Sample.bounded1A ∧
  _checkpoints Sample.bounded1A = Z.of_nat 0 ∧
  wellBracketed
    [OpCheckpoint; OpMutate (Put Sample.B (Some Sample.v2)); OpCheckpoint;
     OpMutate (Del Sample.A); OpCommit; OpFlush; OpRevert; OpGet Sample.A;
     OpCheckpoint] 0 = true ∧
  _checkpoints
    (run Sample.serialize
       [OpCheckpoint; OpMutate (Put Sample.B (Some Sample.v2)); OpCheckpoint;
        OpMutate (Del Sample.A); OpCommit; OpFlush; OpRevert; OpGet Sample.A;
        OpCheckpoint] Sample.bounded1A) = 1%Z.
Proof.
  split; [reflexivity|]. split; [reflexivity|]. split; [reflexivity|].
  destruct (stack_discipline Sample.serialize
              [OpCheckpoint; OpMutate (Put Sample.B (Some Sample.v2)); OpCheckpoint;
               OpMutate (Del Sample.A); OpCommit; OpFlush; OpRevert;
               OpGet Sample.A; OpCheckpoint] Sample.bounded1A 0)
    as (_ & _ & Hdepth & _); [reflexivity..|].
  exact Hdepth.
Defined.


(** ** The counters *)

Lemma countOps_cons {Account : Type} (p : Op Account → bool) op ops :
  countOps p (op :: ops) = ((if p op then 1 else 0) + countOps p ops)%Z.
Proof.
  unfold countOps. rewrite filter_cons.
  destruct (decide (p op = true)) as [->|Hn].
  - simpl length. lia.
  - destruct (p op); [done|]. lia.
Qed.

Lemma countOps_nonneg {Account : Type} (p : Op Account → bool) ops :
  (0 ≤ countOps p ops)%Z.
Proof. unfold countOps. lia. Qed.

Lemma revert_stats s : _stats (revert s).2 = _stats s.
Proof. unfold revert. simpl. by destruct (pop (_diffCache s)) as [[d rest]|]. Qed.

Lemma flush_stats s : _stats (flush s).2 = _stats s.
Proof.
  destruct (currentLayer s) as [d|] eqn:Hd.
  - by destruct (flush_spec s d Hd) as (_ & _ & _ & H4 & _).
  - by rewrite (flush_throw s Hd).
Qed.

Section counters.
Context {Account : Type} (serialize : Account → Buffer).

Lemma exec_stats (op : Op Account) s :
  reads (_stats (exec serialize op s))
    = (reads (_stats s) + (if isGet op then 1 else 0))%Z ∧
  (hits (_stats s) ≤ hits (_stats (exec serialize op s))
     ≤ hits (_stats s) + (if isGet op then 1 else 0))%Z ∧
  writes (_stats (exec serialize op s))
    = (writes (_stats s)
       + (if isPut op && returns serialize op s then 1 else 0))%Z ∧
  dels (_stats (exec serialize op s))
    = (dels (_stats s)
       + (if isDel op && returns serialize op s then 1 else 0))%Z.
Proof.
  destruct op as [m|a| | | |]; simpl.
  - destruct (currentLayer s) as [d|] eqn:Hd.
    + rewrite (mutate_spec serialize m s d Hd). destruct m; simpl; lia.
    + rewrite (mutate_throw serialize m s Hd). destruct m; simpl; lia.
  - rewrite get_spec. simpl.
    destruct (backendLookup (_backend s) (addressHex a)); simpl; lia.
  - lia.
  - rewrite (proj2 (commit_frame s)). lia.
  - rewrite revert_stats. lia.
  - rewrite flush_stats. lia.
Qed.

Lemma run_stats (ops : list (Op Account)) s :
  reads (_stats (run serialize ops s))
    = (reads (_stats s) + countOps isGet ops)%Z ∧
  (hits (_stats s) ≤ hits (_stats (run serialize ops s))
     ≤ hits (_stats s) + countOps isGet ops)%Z ∧
  (writes (_stats s) ≤ writes (_stats (run serialize ops s))
     ≤ writes (_stats s) + countOps isPut ops)%Z ∧
  (dels (_stats s) ≤ dels (_stats (run serialize ops s))
     ≤ dels (_stats s) + countOps isDel ops)%Z ∧
  (allReturn serialize ops s = true →
   writes (_stats (run serialize ops s))
     = (writes (_stats s) + countOps isPut ops)%Z ∧
   dels (_stats (run serialize ops s))
     = (dels (_stats s) + countOps isDel ops)%Z).
Proof.
  revert s. induction ops as [|op ops IH]; intros s.
  { unfold countOps. simpl. repeat split; lia. }
  change (run serialize (op :: ops) s) with (run serialize ops (exec serialize op s)).
  destruct (IH (exec serialize op s)) as (Hr & Hh & Hw & Hd & Hex).
  destruct (exec_stats op s) as (Er & Eh & Ew & Ed).
  rewrite !countOps_cons. simpl allReturn.
  destruct (isGet op), (isPut op), (isDel op), (returns serialize op s);
    simpl in Er, Eh, Ew, Ed |- *;
    (split; [lia|]); (split; [lia|]); (split; [lia|]); (split; [lia|]);
    intros Hall; try discriminate Hall; destruct (Hex Hall); lia.
Qed.
End counters.

(** X6. What the counters count. Over any run of calls, [reads] grows by
    exactly the number of [get] calls and [hits] by at most that many;
    [writes] and [dels] grow by at most the number of put and del calls,
    and by exactly that number when every call of the run returns; no
    counter ever decreases, no other call touches a counter, and [hits]
    stays at or below [reads] if it started there. *)
Theorem counters_count {Account : Type} (serialize : Account → Buffer)
    (ops : list (Op Account)) (s : Cache) :
  reads (_stats (run serialize ops s))
    = (reads (_stats s) + countOps isGet ops)%Z ∧
  (hits (_stats s) ≤ hits (_stats (run serialize ops s))
     ≤ hits (_stats s) + countOps isGet ops)%Z ∧
  (writes (_stats s) ≤ writes (_stats (run serialize ops s))
     ≤ writes (_stats s) + countOps isPut ops)%Z ∧
  (dels (_stats s) ≤ dels (_stats (run serialize ops s))
     ≤ dels (_stats s) + countOps isDel ops)%Z ∧
  (allReturn serialize ops s = true →
   writes (_stats (run serialize ops s))
     = (writes (_stats s) + countOps isPut ops)%Z ∧
   dels (_stats (run serialize ops s))
     = (dels (_stats s) + countOps isDel ops)%Z) ∧
  ((hits (_stats s) ≤ reads (_stats s))%Z →
   (hits (_stats (run serialize ops s)) ≤ reads (_stats (run serialize ops s)))%Z).
Proof.
  destruct (run_stats serialize ops s) as (Hr & Hh & Hw & Hd & Hex).
  do 5 (split; [done|]). lia.
Qed.

(** The theorem at work: a run with two puts, one del and two gets on a new
    bounded cache, all of which return. *)
Lemma counters_count_witness :
  allReturn Sample.serialize
    [OpMutate (Put Sample.A (Some Sample.v1)); OpGet Sample.A; OpCheckpoint;
     OpMutate (Del Sample.A); OpMutate (Put Sample.B None); OpGet Sample.A;
     OpRevert] Sample.bounded1 = true ∧
  writes (_stats (run Sample.serialize
    [OpMutate (Put Sample.A (Some Sample.v1)); OpGet Sample.A; OpCheckpoint;
     OpMutate (Del Sample.A); OpMutate (Put Sample.B None); OpGet Sample.A;
     OpRevert] Sample.bounded1)) = 2%Z ∧
  dels (_stats (run Sample.serialize
    [OpMutate (Put Sample.A (Some Sample.v1)); OpGet Sample.A; OpCheckpoint;
     OpMutate (Del Sample.A); OpMutate (Put Sample.B None); OpGet Sample.A;
     OpRevert] Sample.bounded1)) = 1%Z.
Proof.
  split; [reflexivity|].
  destruct (counters_count Sample.serialize
    [OpMutate (Put Sample.A (Some Sample.v1)); OpGet Sample.A; OpCheckpoint;
     OpMutate (Del Sample.A); OpMutate (Put Sample.B None); OpGet Sample.A;
     OpRevert] Sample.bounded1) as (_ & _ & _ & _ & Hex & _).
  apply Hex. reflexivity.
Defined.

(** ** The counters are observational *)

Lemma commitLoop_setStats es st s :
  commitLoop es (setStats st s)
    = ((commitLoop es s).1, setStats st (commitLoop es s).2).
Proof.
  revert s. induction es as [|[k e] es IH]; intros s; simpl; [done|].
  destruct (arrayGet (_diffCache s) (_checkpoints s)) as [parent|]; [|done].
  destruct (OrderedMap.getElementByKey parent k); [apply IH|].
  apply (IH (setDiffCache _ s)).
Qed.

Lemma commit_setStats st s :
  commit (setStats st s) = ((commit s).1, setStats st (commit s).2).
Proof.
  destruct s as [b dc c st0]. unfold commit. simpl.
  destruct (pop dc) as [[d rest]|]; [|done].
  exact (commitLoop_setStats (OrderedMap.entries d) st (mkCache b rest (c - 1) st0)).
Qed.

Section observational.
Context {Account : Type} (serialize : Account → Buffer).

Lemma exec_setStats (op : Op Account) st s :
  ∃ st', exec serialize op (setStats st s) = setStats st' (exec serialize op s) ∧
         returns serialize op (setStats st s) = returns serialize op s.
Proof.
  destruct op as [m|a| | | |]; simpl.
  - destruct m as [a acc|a]; simpl; unfold put, del, bind, _saveCachePreState; simpl;
      destruct (arrayGet (_diffCache s) (_checkpoints s)) as [d|]; simpl;
      try (by eexists);
      destruct (OrderedMap.found d (addressHex a)); simpl; try (by eexists);
      destruct (cacheGet (_backend s) (addressHex a)); simpl; by eexists.
  - unfold get. simpl. destruct (cacheGet (_backend s) (addressHex a)) as [[e|] b];
      simpl; by eexists.
  - by eexists.
  - exists st. by rewrite commit_setStats.
  - unfold revert. simpl. destruct (pop (_diffCache s)) as [[d rest]|]; simpl;
      by eexists.
  - unfold flush. simpl.
    destruct (arrayGet (_diffCache s) (_checkpoints s)) as [d|]; simpl;
      [|by eexists].
    destruct (flushLoop _ _ _); simpl. by eexists.
Qed.

Lemma run_setStats (ops : list (Op Account)) st s :
  ∃ st', run serialize ops (setStats st s) = setStats st' (run serialize ops s) ∧
         allReturn serialize ops (setStats st s) = allReturn serialize ops s.
Proof.
  revert st s. induction ops as [|op ops IH]; intros st s; [by exists st|].
  change (run serialize (op :: ops) ?x) with (run serialize ops (exec serialize op x)).
  simpl allReturn.
  destruct (exec_setStats op st s) as (st1 & -> & ->).
  destruct (IH st1 (exec serialize op s)) as (st' & -> & ->). by exists st'.
Qed.
End observational.

(** X7. The counters are purely observational: started with any other
    values of the counters, a run of calls leaves the same backend, the
    same diff layers and the same depth, the same calls return or throw,
    and a [get] or [flush] made after the run returns the same result. *)
Theorem counters_observational {Account : Type} (serialize : Account → Buffer)
    (ops : list (Op Account)) (st : Stats) (s : Cache) (a : Address) :
  sameButStats (run serialize ops (setStats st s)) (run serialize ops s) ∧
  allReturn serialize ops (setStats st s) = allReturn serialize ops s ∧
  (get a (run serialize ops (setStats st s))).1 = (get a (run serialize ops s)).1 ∧
  (flush (run serialize ops (setStats st s))).1 = (flush (run serialize ops s)).1.
Proof.
  destruct (run_setStats serialize ops st s) as (st' & -> & ->).
  split; [done|]. split; [done|]. split.
  - by rewrite !get_spec.
  - unfold flush. simpl.
    destruct (arrayGet (_diffCache (run serialize ops s))
                (_checkpoints (run serialize ops s))); [|done].
    by destruct (flushLoop _ _ _).
Qed.


(** ** Checkpoints that are closed at once, and flushes inside a checkpoint *)

(** X8. A checkpoint that is reverted or committed at once leaves no trace:
    in every state, [checkpoint()] followed directly by [revert()] or by
    [commit()] returns and gives back exactly the state before (backend,
    layers, depth and counters). *)
Theorem empty_checkpoint_noop (s : Cache) :
  revert (checkpoint s).2 = (Normal (), s) ∧
  commit (checkpoint s).2 = (Normal (), s).
Proof.
  destruct s as [b dc c st]. unfold revert, commit, checkpoint. simpl.
  rewrite pop_app, entries_empty. simpl.
  replace (c + 1 - 1)%Z with c by lia. done.
Qed.

(** X9. A [flush()] inside an open checkpoint gives up the undo
    information of that checkpoint. In a state whose top layer is the layer
    of the current height, after [flush()] a [revert()] returns, pops the
    layer and restores nothing (every backend entry stays as it was before
    the flush), and a [commit()] returns, pops the layer and hands nothing
    down to the layers below, which stay as they were. *)
Theorem flush_forgets_undo (s : Cache) (L : list DiffMap) (top : DiffMap) :
  _diffCache s = L ++ [top] → _checkpoints s = Z.of_nat (length L) →
  ((revert (flush s).2).1 = Normal () ∧
   _diffCache (revert (flush s).2).2 = L ∧
   ∀ k, backendLookup (_backend (revert (flush s).2).2) k
        = backendLookup (_backend s) k) ∧
  ((commit (flush s).2).1 = Normal () ∧
   _diffCache (commit (flush s).2).2 = L ∧
   ∀ k, backendLookup (_backend (commit (flush s).2).2) k
        = backendLookup (_backend s) k).
Proof.
  intros Hdc Hc. pose proof (top_currentLayer L s top Hdc Hc) as Hd.
  destruct (flush_spec s top Hd) as (_ & H2 & H3 & _ & H5 & _).
  assert (_diffCache (flush s).2 = L ++ [∅]) as Hdc'.
  { rewrite H2, Hdc. by apply arraySet_top. }
  split.
  - rewrite (revert_spec (flush s).2 ∅ L Hdc'). rewrite entries_empty. simpl.
    split; [done|]. split; [done|]. apply H5.
  - unfold commit. simpl. rewrite Hdc', pop_app, entries_empty. simpl.
    split; [done|]. split; [done|]. apply H5.
Qed.

(** The theorem at work on the unbounded cache after [put(A, v1);
    checkpoint(); put(A, v2)]: after a flush, the revert leaves [A] at
    [v2]. *)
Lemma flush_forgets_undo_witness :
  _diffCache Sample.mutatedOnce
    = [{[addressHex Sample.A := None]}]
      ++ [{[addressHex Sample.A := Some (mkElem (Some Sample.v1))]}] ∧
  _checkpoints Sample.mutatedOnce = Z.of_nat 1 ∧
  backendLookup (_backend (revert (flush Sample.mutatedOnce).2).2)
    (addressHex Sample.A) = Some (mkElem (Some Sample.v2)).
Proof.
  split; [reflexivity|]. split; [reflexivity|].
  destruct (flush_forgets_undo Sample.mutatedOnce
              [{[addressHex Sample.A := None]}]
              {[addressHex Sample.A := Some (mkElem (Some Sample.v1))]})
    as ((_ & _ & Hk) & _); [reflexivity..|].
  rewrite Hk. reflexivity.
Defined.

(** ** The order of a flush *)

Lemma presentPairs_keys_Forall (P : string → Prop) keys b :
  Forall P keys → Forall P (presentPairs keys b).*1.
Proof.
  induction 1 as [|k keys Hk _ IH]; simpl; [constructor|].
  destruct (backendLookup b k); [|done]. rewrite fmap_cons. by constructor.
Qed.

Lemma presentPairs_keys_NoDup keys b :
  NoDup keys → NoDup (presentPairs keys b).*1.
Proof.
  induction 1 as [|k keys Hk _ IH]; simpl; [constructor|].
  destruct (backendLookup b k); [|done]. rewrite fmap_cons. constructor; [|done].
  simpl. intros Hin. apply Hk.
  apply list_elem_of_fmap in Hin as [[k' e] [-> Hin]].
  by apply elem_of_presentPairs in Hin as [? _].
Qed.

Lemma presentPairs_keys_sorted (R : relation string) keys b :
  StronglySorted R keys → StronglySorted R (presentPairs keys b).*1.
Proof.
  induction 1 as [|k keys _ IH Hk]; simpl; [constructor|].
  destruct (backendLookup b k); [|done]. rewrite fmap_cons. constructor; [done|].
  by apply presentPairs_keys_Forall.
Qed.

Lemma entries_keys_sorted {V : Type} (m : gmap string V) :
  StronglySorted String.le (OrderedMap.entries m).*1.
Proof.
  apply (StronglySorted_fmap fst (λ p q : string * V, String.le p.1 q.1));
    [done|].
  unfold OrderedMap.entries. apply StronglySorted_merge_sort.
  - intros p q r Hpq Hqr. by etrans.
  - intros p q. apply (total String.le).
Qed.

(** X10. The order of a flush. The sequence [flush()] returns lists every
    key at most once, in ascending order of the hexadecimal keys, and a
    [get] of a reported address made right after the flush returns the
    reported element. *)
Theorem flush_ordered (s : Cache) (d : DiffMap) :
  currentLayer s = Some d →
  ∃ items,
    (flush s).1 = Normal items ∧
    NoDup items.*1 ∧
    StronglySorted String.le items.*1 ∧
    ∀ a e, (addressHex a, e) ∈ items → (get a (flush s).2).1 = Normal (Some e).
Proof.
  intros Hd. destruct (flush_spec s d Hd) as (H1 & _ & _ & _ & H5 & _).
  eexists. split; [exact H1|]. split; [|split].
  - apply presentPairs_keys_NoDup, NoDup_entries_keys.
  - apply presentPairs_keys_sorted, entries_keys_sorted.
  - intros a e [_ He]%elem_of_presentPairs. by rewrite get_spec, H5, He.
Qed.

(** The theorem at work on a bounded cache of capacity 1 after
    [put(A, v1); put(B, v2)]. *)
Lemma flush_ordered_witness :
  currentLayer Sample.evicted = Some Sample.evictedLayer ∧
  ∃ items,
    (flush Sample.evicted).1 = Normal items ∧
    NoDup items.*1 ∧
    StronglySorted String.le items.*1 ∧
    ∀ a e, (addressHex a, e) ∈ items →
           (get a (flush Sample.evicted).2).1 = Normal (Some e).
Proof.
  split; [reflexivity|].
  apply (flush_ordered Sample.evicted Sample.evictedLayer). reflexivity.
Defined.

(** ** del and put *)

(** X11. [del(A)] is [put(A, undefined)] as far as the cache content goes:
    in every state both return or both throw, and they leave the same
    backend, the same diff layers and the same depth; they differ only in
    the counter they increment ([dels] for the one, [writes] for the
    other). *)
Theorem del_is_put_undefined {Account : Type} (serialize : Account → Buffer)
    (a : Address) (s : Cache) :
  (del a s).1 = (put serialize a None s).1 ∧
  sameButStats (del a s).2 (put serialize a None s).2 ∧
  reads (_stats (del a s).2) = reads (_stats (put serialize a None s).2) ∧
  hits (_stats (del a s).2) = hits (_stats (put serialize a None s).2) ∧
  ((del a s).1 = Normal () →
   dels (_stats (del a s).2) = (dels (_stats s) + 1)%Z ∧
   writes (_stats (del a s).2) = writes (_stats s) ∧
   writes (_stats (put serialize a None s).2) = (writes (_stats s) + 1)%Z ∧
   dels (_stats (put serialize a None s).2) = dels (_stats s)).
Proof.
  destruct (currentLayer s) as [d|] eqn:Hd.
  - pose proof (mutate_spec serialize (Put a None) s d Hd) as Hput.
    pose proof (mutate_spec serialize (@Del Account a) s d Hd) as Hdel.
    simpl in Hput, Hdel. rewrite Hput, Hdel. by repeat split.
  - pose proof (mutate_throw serialize (Put a None) s Hd) as Hput.
    pose proof (mutate_throw serialize (@Del Account a) s Hd) as Hdel.
    simpl in Hput, Hdel. rewrite Hput, Hdel. by repeat split.
Qed.


(** ** Commit and the layers below *)

Lemma mergedEntry_is_Some parent top k :
  is_Some (mergedEntry parent top k) ↔ is_Some (parent !! k) ∨ is_Some (top !! k).
Proof.
  unfold mergedEntry, OrderedMap.getElementByKey.
  destruct (top !! k) as [pre|], (parent !! k) as [[e|]|]; split; eauto.
  intros [[? [=]]|[? [=]]].
Qed.

(** X12. What [commit()] hands down. With a checkpoint open on a stack that
    is in step with the depth, [commit()] returns, lowers the depth by one,
    leaves backend, counters and all layers below the parent untouched, and
    replaces the two top layers by one merged layer. That layer records
    exactly the keys of the parent and of the popped layer; a key the
    popped layer does not hold keeps the parent's entry, a key the parent
    does not hold gets the popped layer's pre-image, and a key for which
    the parent records an element keeps that element. *)
Theorem commit_merges_layers (s : Cache) (L : list DiffMap) (parent top : DiffMap) :
  _diffCache s = L ++ [parent; top] →
  _checkpoints s = (Z.of_nat (length L) + 1)%Z →
  ∃ merged,
    commit s =
      (Normal (), mkCache (_backend s) (L ++ [merged]) (_checkpoints s - 1) (_stats s)) ∧
    (∀ k, is_Some (merged !! k) ↔ is_Some (parent !! k) ∨ is_Some (top !! k)) ∧
    (∀ k, top !! k = None → merged !! k = parent !! k) ∧
    (∀ k, parent !! k = None → merged !! k = top !! k) ∧
    (∀ k e, parent !! k = Some (Some e) → merged !! k = Some (Some e)).
Proof.
  intros Hdc Hc.
  destruct (commit_spec s L parent top Hdc Hc) as (merged & Hrun & Hk).
  exists merged. split; [done|]. split; [|split; [|split]].
  - intros k. rewrite Hk. apply mergedEntry_is_Some.
  - intros k Htop. rewrite Hk. unfold mergedEntry. by rewrite Htop.
  - intros k Hp. rewrite Hk. unfold mergedEntry, OrderedMap.getElementByKey.
    rewrite Hp. by destruct (top !! k).
  - intros k e Hp. rewrite Hk. unfold mergedEntry, OrderedMap.getElementByKey.
    rewrite Hp. by destruct (top !! k).
Qed.

(** The theorem at work with two checkpoints open that recorded different
    keys. *)
Lemma commit_merges_layers_witness :
  _diffCache Sample.twoScopes
    = [∅] ++ [{[addressHex Sample.A := None]}; {[addressHex Sample.B := None]}] ∧
  _checkpoints Sample.twoScopes = (Z.of_nat (length [(∅ : DiffMap)]) + 1)%Z ∧
  ∃ merged,
    commit Sample.twoScopes =
      (Normal (),
       mkCache (_backend Sample.twoScopes) ([∅] ++ [merged])
         (_checkpoints Sample.twoScopes - 1) (_stats Sample.twoScopes)) ∧
    merged !! addressHex Sample.B = Some None.
Proof.
  split; [reflexivity|]. split; [reflexivity|].
  destruct (commit_merges_layers Sample.twoScopes [∅]
              {[addressHex Sample.A := None]} {[addressHex Sample.B := None]})
    as (merged & Hrun & _ & _ & Hnew & _); [reflexivity..|].
  exists merged. split; [exact Hrun|]. rewrite Hnew; reflexivity.
Defined.

Section nested.
Context {Account : Type} (serialize : Account → Buffer).
Implicit Types (ms : list (Mutation Account)).




End nested.







(** ** The whole state after a revert, and the layers below *)





Section whole_state.
Context {Account : Type} (serialize : Account → Buffer).





Lemma local_frame (op : Op Account) s i :
  isLocal op = true → i ≠ _checkpoints s →
  _checkpoints (exec serialize op s) = _checkpoints s ∧
  length (_diffCache (exec serialize op s)) = length (_diffCache s) ∧
  arrayGet (_diffCache (exec serialize op s)) i = arrayGet (_diffCache s) i.
Proof.
  intros Hop Hi. destruct op as [m|a| | | |]; try discriminate Hop; simpl.
  - destruct (currentLayer s) as [d|] eqn:Hd.
    + rewrite (mutate_spec serialize m s d Hd). simpl.
      rewrite arraySet_length. split; [done|]. split; [done|].
      by eapply arrayGet_arraySet_ne.
    + by rewrite (mutate_throw serialize m s Hd).
  - by rewrite get_spec.
  - destruct (currentLayer s) as [d|] eqn:Hd.
    + destruct (flush_spec s d Hd) as (_ & H2 & H3 & _).
      rewrite H2, H3, arraySet_length. split; [done|]. split; [done|].
      by eapply arrayGet_arraySet_ne.
    + by rewrite (flush_throw s Hd).
Qed.

Lemma local_run_frame (ops : list (Op Account)) s i :
  Forall (λ op, isLocal op = true) ops → i ≠ _checkpoints s →
  _checkpoints (run serialize ops s) = _checkpoints s ∧
  length (_diffCache (run serialize ops s)) = length (_diffCache s) ∧
  arrayGet (_diffCache (run serialize ops s)) i = arrayGet (_diffCache s) i.
Proof.
  intros Hall. revert s. induction Hall as [|op ops Hop _ IH]; intros s Hi; [done|].
  change (run serialize (op :: ops) s) with (run serialize ops (exec serialize op s)).
  destruct (local_frame op s i Hop Hi) as (H1 & H2 & H3).
  destruct (IH (exec serialize op s)) as (H4 & H5 & H6); [by rewrite H1|].
  by rewrite H4, H5, H6.
Qed.
End whole_state.



(** X16. Calls made at one checkpoint height never touch the layers of the
    other heights: over any run of put, del, get and flush calls the depth
    and the number of layers stay the same, and every diff layer other than
    the one of the current height (in particular the pre-images held for
    the outer checkpoints) is unchanged. *)
Theorem outer_layers_untouched {Account : Type} (serialize : Account → Buffer)
    (ops : list (Op Account)) (s : Cache) (i : Z) :
  Forall (λ op, isLocal op = true) ops → i ≠ _checkpoints s →
  _checkpoints (run serialize ops s) = _checkpoints s ∧
  length (_diffCache (run serialize ops s)) = length (_diffCache s) ∧
  arrayGet (_diffCache (run serialize ops s)) i = arrayGet (_diffCache s) i.
Proof. apply local_run_frame. Qed.

(** The theorem at work with two checkpoints open: the layer of the outer
    checkpoint survives puts, a del and a flush made in the inner one. *)
Lemma outer_layers_untouched_witness :
  Forall (λ op, isLocal op = true)
    [OpMutate (Put Sample.A (Some Sample.v3)); OpMutate (Del Sample.B); OpFlush;
     OpGet Sample.A; OpMutate (Put Sample.B None)] ∧
  1%Z ≠ _checkpoints Sample.twoScopes ∧
  arrayGet
    (_diffCache (run Sample.serialize
       [OpMutate (Put Sample.A (Some Sample.v3)); OpMutate (Del Sample.B); OpFlush;
        OpGet Sample.A; OpMutate (Put Sample.B None)] Sample.twoScopes)) 1
    = Some {[addressHex Sample.A := None]}.
Proof.
  assert (Forall (λ op : Op Buffer, isLocal op = true)
    [OpMutate (Put Sample.A (Some Sample.v3)); OpMutate (Del Sample.B); OpFlush;
     OpGet Sample.A; OpMutate (Put Sample.B None)]) as Hall
    by (repeat constructor).
  assert (1%Z ≠ _checkpoints Sample.twoScopes) as Hne by (vm_compute; discriminate).
  split; [exact Hall|]. split; [exact Hne|].
  destruct (outer_layers_untouched Sample.serialize _ Sample.twoScopes 1 Hall Hne)
    as (_ & _ & Hlayer).
  rewrite Hlayer. reflexivity.
Defined.
